(** * ConnectZ: a shallow embedding of [connectz.py]

    The Python module validates the log of a Connect-Z game (X columns,
    Y rows, Z discs in a row win).  Python integers are modelled by [Z],
    lists by [list], the text stream by the list of its lines, exceptions
    by the left summand of a sum type, and the one mutable object (the
    [ConnectZ] instance with its grid) by explicit state passing. *)

From Stdlib Require Import ZArith String Ascii Bool Lia.
From stdpp Require Import list.

Local Open Scope Z_scope.

(** ** Enumerations and exceptions *)

Inductive Player : Type := FIRST | SECOND.

Definition Player_value (p : Player) : Z :=
  match p with FIRST => 1 | SECOND => 2 end.

Inductive GameResult : Type := DRAW | FIRST_WON | SECOND_WON.

Definition GameResult_value (r : GameResult) : Z :=
  match r with DRAW => 0 | FIRST_WON => 1 | SECOND_WON => 2 end.

(** [GameResult(player.value)]: the member of [GameResult] whose value is
    the value of [player]. *)
Definition GameResult_of_player (player : Player) : GameResult :=
  match player with FIRST => FIRST_WON | SECOND => SECOND_WON end.

Global Instance Player_eq_dec : EqDecision Player.
Proof. solve_decision. Defined.

Global Instance GameResult_eq_dec : EqDecision GameResult.
Proof. solve_decision. Defined.

(** The exceptions of the module, and the three built-in ones that its
    code can raise without catching them. *)
Inductive Exc : Type :=
| ParsingProblem
| InvalidParametersException (x y z : Z)
| InvalidColumnException (column : Z)
| ColumnToHighException (column : Z)
| ToManyMovesException
| LackOfResultException
| UnboundLocalError
| IndexError
| TypeError
| FileNotFoundError.

Definition res (A : Type) : Type := Exc + A.

Definition res_bind {A B : Type} (m : res A) (f : A -> res B) : res B :=
  match m with inl e => inl e | inr a => f a end.

Notation "x <~ m ; k" := (res_bind m (fun x => k))
  (at level 20, m at level 100, k at level 200, only parsing).

(** A list comprehension whose element expression may raise. *)
Fixpoint res_mapM {A B : Type} (f : A -> res B) (l : list A) : res (list B) :=
  match l with
  | [] => inr []
  | a :: l' => b <~ f a ; bs <~ res_mapM f l' ; inr (b :: bs)
  end.

(** ** Python lists and ranges *)

(** Position addressed by the subscript [i] in a list of [len] elements:
    negative subscripts count from the end. *)
Definition py_index (len : nat) (i : Z) : option nat :=
  let j := if i <? 0 then i + Z.of_nat len else i in
  if (0 <=? j) && (j <? Z.of_nat len) then Some (Z.to_nat j) else None.

(** [l[i]] *)
Definition py_getitem {A : Type} (l : list A) (i : Z) : res A :=
  match py_index (length l) i with
  | Some n => match l !! n with Some a => inr a | None => inl IndexError end
  | None => inl IndexError
  end.

(** [range(stop)], [range(start, stop)] and [range(start, stop, -1)] *)
Definition range (start stop : Z) : list Z := seqZ start (stop - start).

Definition range_down (start stop : Z) : list Z :=
  map (fun k => start - k) (seqZ 0 (start - stop)).

(** [zip] is [combine]. *)
Definition zip {A B : Type} (l : list A) (k : list B) : list (A * B) :=
  combine l k.

(** ** Text: lines, [str.split] and [int] *)

Local Open Scope char_scope.

(** White space of [str.split()] and of [int()] among the ASCII
    characters: tab, line feed, vertical tab, form feed, carriage return,
    the four separators 0x1c to 0x1f, and the space. *)
Definition is_space (a : ascii) : bool :=
  let n := nat_of_ascii a in
  ((9 <=? n) && (n <=? 13) || (28 <=? n) && (n <=? 32))%nat.

Definition is_digit (a : ascii) : bool :=
  let n := nat_of_ascii a in ((48 <=? n) && (n <=? 57))%nat.

Definition digit_value (a : ascii) : Z := Z.of_nat (nat_of_ascii a) - 48.

Local Close Scope char_scope.
Local Open Scope string_scope.

Definition newline : string := String "010"%char "".

(** The lines a text stream yields when it is iterated, for the text of
    the stream after the translation of line ends to line feeds: each line
    ends with its line feed, except perhaps the last. *)
Fixpoint readlines (s : string) : list string :=
  match s with
  | EmptyString => []
  | String a rest =>
      if Ascii.eqb a "010"%char then String a "" :: readlines rest
      else match readlines rest with
           | [] => [String a ""]
           | l :: ls => String a l :: ls
           end
  end.

(** [s.split()] *)
Fixpoint split (s : string) : list string :=
  match s with
  | EmptyString => []
  | String a rest =>
      if is_space a then split rest
      else match rest with
           | EmptyString => [String a ""]
           | String b _ =>
               if is_space b then String a "" :: split rest
               else match split rest with
                    | [] => [String a ""]
                    | w :: ws => String a w :: ws
                    end
           end
  end.

Fixpoint lstrip (s : string) : string :=
  match s with
  | EmptyString => EmptyString
  | String a rest => if is_space a then lstrip rest else s
  end.

Fixpoint all_space (s : string) : bool :=
  match s with
  | EmptyString => true
  | String a rest => is_space a && all_space rest
  end.

(** The digits of a decimal literal: groups of digits separated by single
    underscores, followed by white space only.  [after_digit] tells whether
    the previous character was a digit. *)
Fixpoint int_digits (s : string) (acc : Z) (after_digit : bool) : option Z :=
  match s with
  | EmptyString => if after_digit then Some acc else None
  | String a rest =>
      if is_digit a then int_digits rest (10 * acc + digit_value a) true
      else if Ascii.eqb a "_"%char then
        if after_digit then int_digits rest acc false else None
      else if after_digit && all_space s then Some acc else None
  end.

(** [int(s)] on ASCII text; [None] stands for [ValueError].  Surrounding
    white space is skipped, one sign is allowed. *)
Definition py_int (s : string) : option Z :=
  match lstrip s with
  | String "+"%char rest => int_digits rest 0 false
  | String "-"%char rest => Z.opp <$> int_digits rest 0 false
  | t => int_digits t 0 false
  end.

Local Close Scope string_scope.

(** ** The class [ConnectZ] *)

Record ConnectZ : Type := mkConnectZ {
  _x : Z;
  _y : Z;
  _z : Z;
  _moves : list Z;
  _grid : option (list (list Player))
}.

(** Methods that mutate [self] take the instance and return it with their
    result, also when they raise. *)
Definition M (A : Type) : Type := ConnectZ -> res A * ConnectZ.

Definition ret {A : Type} (a : A) : M A := fun self => (inr a, self).

Definition raise {A : Type} (e : Exc) : M A := fun self => (inl e, self).

Definition bind {A B : Type} (m : M A) (f : A -> M B) : M B :=
  fun self =>
    match m self with
    | (inl e, self') => (inl e, self')
    | (inr a, self') => f a self'
    end.

(** A method that only reads [self]. *)
Definition reading {A : Type} (f : ConnectZ -> res A) : M A :=
  fun self => (f self, self).

Notation "x <== m ; k" := (bind m (fun x => k))
  (at level 20, m at level 100, k at level 200, only parsing).
Notation "m >>> k" := (bind m (fun _ => k))
  (at level 20, k at level 200, only parsing).

Definition set_grid (g : list (list Player)) : M unit :=
  fun self =>
    (inr tt, mkConnectZ (_x self) (_y self) (_z self) (_moves self) (Some g)).

(** [self._grid] where the code subscripts or iterates it: [None] is
    neither subscriptable nor iterable. *)
Definition the_grid (self : ConnectZ) : res (list (list Player)) :=
  match _grid self with Some g => inr g | None => inl TypeError end.

(** The condition of [__init__] under which the parameters are refused. *)
Definition invalid_parameters (x y z : Z) : bool :=
  (z >? Z.max x y) || (Z.min x (Z.min y z) <? 1).

(** [ConnectZ.__init__]: [text_io] is the list of the lines of the stream.
    Every [ValueError] (of [int], or of unpacking other than three values)
    becomes [ParsingProblem]. *)
Definition ConnectZ_init (text_io : list string) : res ConnectZ :=
  match map py_int (split (hd EmptyString text_io)) with
  | [Some x; Some y; Some z] =>
      match mapM py_int (tl text_io) with
      | Some moves =>
          if invalid_parameters x y z
          then inl (InvalidParametersException x y z)
          else inr (mkConnectZ x y z moves None)
      | None => inl ParsingProblem
      end
  | _ => inl ParsingProblem
  end.

(** [players()]: the [i]-th value the generator yields. *)
Definition players (i : nat) : Player :=
  if Nat.even i then FIRST else SECOND.

(** [zip(moves, players())] *)
Definition zip_players (moves : list Z) : list (Z * Player) :=
  zip moves (map players (seq 0 (length moves))).

Definition put_disc (player : Player) (column : Z) : M unit :=
  fun self =>
    if negb ((0 <? column) && (column <=? _x self))
    then (inl (InvalidColumnException column), self)
    else
      match the_grid self with
      | inl e => (inl e, self)
      | inr g =>
          match py_getitem g (column - 1) with
          | inl e => (inl e, self)
          | inr column_list =>
              if Z.of_nat (length column_list) >=? _y self
              then (inl (ColumnToHighException column), self)
              else
                match py_index (length g) (column - 1) with
                | Some n => set_grid (<[n := column_list ++ [player]]> g) self
                | None => (inl IndexError, self)
                end
          end
      end.

Definition _get_or_none (self : ConnectZ) (x y : Z) : res (option Player) :=
  g <~ the_grid self ;
  column <~ py_getitem g x ;
  if y >=? Z.of_nat (length column) then inr None
  else p <~ py_getitem column y ; inr (Some p).

(** The coordinate lists [_diagonals] yields, in order. *)
Definition _diagonals (self : ConnectZ) : list (list (Z * Z)) :=
  flat_map (fun x =>
    flat_map (fun y =>
      [ zip (range x (_x self)) (range y (_y self));
        zip (range_down (_x self - 1 - x) (-1)) (range y (_y self)) ])
      (range 0 (_y self + 1 - _z self)))
    (range 0 (_x self + 1 - _z self)).

(** The lines [_possible_lines] yields, in order.  The generator is lazy:
    a line is computed when it is asked for, so each element carries the
    outcome of computing it. *)
Definition _possible_lines (self : ConnectZ) : list (res (list (option Player))) :=
  match the_grid self with
  | inl e => [inl e]
  | inr g =>
      map (fun column => inr (map Some column)) g
      ++ map (fun y => res_mapM (fun x => _get_or_none self x y) (range 0 (_x self)))
           (range 0 (_y self))
      ++ map (fun diagonal => res_mapM (fun '(x, y) => _get_or_none self x y) diagonal)
           (_diagonals self)
  end.

Definition _check_for_draw (self : ConnectZ) : res bool :=
  g <~ the_grid self ;
  inr (forallb (fun column => Z.of_nat (length column) =? _y self) g).

(** The loop of [_check_for_result_in_line], from the counter [repeats]. *)
Fixpoint scan_line (z : Z) (player : Player) (line : list (option Player))
    (repeats : Z) : option GameResult :=
  match line with
  | [] => if repeats =? z then Some (GameResult_of_player player) else None
  | field :: line' =>
      if repeats =? z then Some (GameResult_of_player player)
      else if bool_decide (field = Some player)
           then scan_line z player line' (repeats + 1)
           else scan_line z player line' 0
  end.

Definition _check_for_result_in_line (self : ConnectZ)
    (line : list (option Player)) (player : Player) : option GameResult :=
  scan_line (_z self) player line 0.

(** The loop of [_check_for_result] over the lines still to come. *)
Fixpoint first_result (self : ConnectZ) (player : Player)
    (lines : list (res (list (option Player)))) : res (option GameResult) :=
  match lines with
  | [] =>
      full <~ _check_for_draw self ;
      inr (if full then Some DRAW else None)
  | l :: lines' =>
      line <~ l ;
      match _check_for_result_in_line self line player with
      | Some result_in_line => inr (Some result_in_line)
      | None => first_result self player lines'
      end
  end.

Definition _check_for_result (self : ConnectZ) (player : Player)
    : res (option GameResult) :=
  first_result self player (_possible_lines self).

Definition get_second_user (player : Player) : Player :=
  if bool_decide (player = SECOND) then FIRST else SECOND.

(** Truth value of an [Optional[GameResult]]: the members of a plain
    [Enum] are all true, [None] is false. *)
Definition truthy (r : option GameResult) : bool :=
  match r with Some _ => true | None => false end.

(** The body of the loop of [play] for one pair of [zip]. *)
Definition play_move (column : Z) (player : Player) : M unit :=
  r <== reading (fun self => _check_for_result self (get_second_user player)) ;
  if truthy r then raise ToManyMovesException
  else put_disc player column.

(** The loop of [play].  [player] is the local variable of that name as it
    stands before the remaining iterations: unbound ([None]) until the
    first one. *)
Fixpoint play_loop (pairs : list (Z * Player)) (player : option Player)
    : M (option Player) :=
  match pairs with
  | [] => ret player
  | (column, p) :: pairs' =>
      play_move column p >>> play_loop pairs' (Some p)
  end.

(** [play] up to the end of its loop. *)
Definition play_moves : M (option Player) :=
  fun self =>
    (set_grid (replicate (Z.to_nat (_x self)) []) >>>
     play_loop (zip_players (_moves self)) None) self.

(** [play] after its loop. *)
Definition play_result (player : option Player) : M GameResult :=
  match player with
  | None => raise UnboundLocalError
  | Some p =>
      result <== reading (fun self => _check_for_result self p) ;
      match result with
      | None => raise LackOfResultException
      | Some r => ret r
      end
  end.

Definition play : M GameResult :=
  player <== play_moves ; play_result player.

(** ** The script, run with one argument: exit status for the content of
    the input file ([None]: the file cannot be opened).  An exception no
    [except] clause names ends the interpreter with status 1. *)
Definition exit_status (e : Exc) : Z :=
  match e with
  | LackOfResultException => 3
  | ToManyMovesException => 4
  | ColumnToHighException _ => 5
  | InvalidColumnException _ => 6
  | InvalidParametersException _ _ _ => 7
  | ParsingProblem => 8
  | FileNotFoundError => 9
  | UnboundLocalError | IndexError | TypeError => 1
  end.

Definition main (file : option string) : Z :=
  match file with
  | None => exit_status FileNotFoundError
  | Some content =>
      match ConnectZ_init (readlines content) with
      | inl e => exit_status e
      | inr self =>
          match fst (play self) with
          | inl e => exit_status e
          | inr result => GameResult_value result
          end
      end
  end.

(** ** Predicates used in the statements *)

(** [line] contains [z] consecutive cells that hold a disc of [player]. *)
Definition has_run (z : Z) (player : Player) (line : list (option Player)) : Prop :=
  exists pre post, line = pre ++ replicate (Z.to_nat z) (Some player) ++ post.

(** One of the lines the win detector scans holds [_z] consecutive discs
    of [player]. *)
Definition winning_line (self : ConnectZ) (player : Player) : Prop :=
  exists line,
    In (inr line) (_possible_lines self) /\ has_run (_z self) player line.

(** Every column holds exactly [_y] discs. *)
Definition board_full (self : ConnectZ) : Prop :=
  exists g, _grid self = Some g /\
    Forall (fun column => Z.of_nat (length column) = _y self) g.

(** The grid as [play] builds and keeps it: one list per column. *)
Definition well_formed (self : ConnectZ) : Prop :=
  exists g, _grid self = Some g /\ length g = Z.to_nat (_x self).

(** The [n] cells from [(x, y)] upwards to the right, and upwards to the
    left. *)
Definition ascending (x y n : Z) : list (Z * Z) :=
  map (fun k => (x + k, y + k)) (seqZ 0 n).

Definition descending (x y n : Z) : list (Z * Z) :=
  map (fun k => (x - k, y + k)) (seqZ 0 n).

Definition on_board (self : ConnectZ) (c : Z * Z) : Prop :=
  0 <= c.1 < _x self /\ 0 <= c.2 < _y self.

(** Content of the cell [(x, y)] of a grid, for [x] and [y] that are not
    negative. *)
Definition cell (g : list (list Player)) (x y : Z) : option Player :=
  match g !! Z.to_nat x with
  | Some column => column !! Z.to_nat y
  | None => None
  end.

(** The lines of [_possible_lines] for a grid with a list per column. *)
Definition lines_of (self : ConnectZ) (g : list (list Player))
    : list (list (option Player)) :=
  map (map Some) g
  ++ map (fun y => map (fun x => cell g x y) (range 0 (_x self)))
       (range 0 (_y self))
  ++ map (map (fun c : Z * Z => cell g c.1 c.2)) (_diagonals self).

(** The test of [_check_for_draw] on a grid. *)
Definition columns_full (self : ConnectZ) (g : list (list Player)) : bool :=
  forallb (fun column => Z.of_nat (length column) =? _y self) g.

(** The parameters of [self'] are those of [self]. *)
Definition same_parameters (self self' : ConnectZ) : Prop :=
  _x self' = _x self /\ _y self' = _y self /\ _z self' = _z self.

(** The text ends with a line feed. *)
Fixpoint ends_with_newline (s : string) : bool :=
  match s with
  | EmptyString => false
  | String a EmptyString => Ascii.eqb a "010"%char
  | String _ rest => ends_with_newline rest
  end.

(** A line of one reading of a text, and the same line with the line feed
    that the other reading adds to it. *)
Definition same_line (l l' : string) : Prop :=
  l' = l \/ l' = (l ++ newline)%string.

(** Number of discs on a grid, and of the discs of one player. *)
Definition discs (g : list (list Player)) : nat := length (concat g).

Definition discs_of (player : Player) (g : list (list Player)) : nat :=
  length (filter (fun p => p = player) (concat g)).

(** The grid has one list per column and no column is higher than [_y]. *)
Definition heights_bounded (self : ConnectZ) : Prop :=
  exists g, _grid self = Some g /\ length g = Z.to_nat (_x self)
    /\ Forall (fun column => Z.of_nat (length column) <= _y self) g.

(** The instance with another list of moves. *)
Definition set_moves (moves : list Z) (self : ConnectZ) : ConnectZ :=
  mkConnectZ (_x self) (_y self) (_z self) moves (_grid self).

(** The failures of a game, as opposed to the errors of the interpreter. *)
Definition game_failure (e : Exc) : Prop :=
  (exists column, e = InvalidColumnException column)
  \/ (exists column, e = ColumnToHighException column)
  \/ e = ToManyMovesException
  \/ e = LackOfResultException.

(** The four directions of a line: up, right, up to the right, up to the
    left. *)
Definition direction (d : Z * Z) : Prop :=
  d = (0, 1) \/ d = (1, 0) \/ d = (1, 1) \/ d = (-1, 1).

(** The player of the last pair of the loop of [play], or [player] when
    there is no pair. *)
Definition last_player (pairs : list (Z * Player)) (player : option Player)
    : option Player :=
  fold_left (fun _ pair => Some pair.2) pairs player.

(** Inputs of the scenarios. *)
Definition scenario_two_by_two : string :=
  ("2 2 2" ++ newline ++ "1" ++ newline ++ "1" ++ newline ++ "2"
   ++ newline ++ "2")%string.

Definition scenario_no_moves : string := ("1 1 1" ++ newline)%string.

Definition scenario_blank_line : string :=
  ("1 1 1" ++ newline ++ "1" ++ newline ++ newline)%string.

Definition scenario_full_column : string :=
  ("1 2 2" ++ newline ++ "1" ++ newline ++ "1" ++ newline ++ "1")%string.

(** * Properties *)

(** ** The two players *)

(** C10: [get_second_user] has no fixed point and is its own inverse. *)
Theorem get_second_user_involution (p : Player) :
  get_second_user p <> p /\ get_second_user (get_second_user p) = p.
Proof. destruct p; split; cbv; congruence. Qed.

(** ** Dropping a disc *)

Lemma py_index_nonneg (len : nat) (i : Z) :
  0 <= i < Z.of_nat len -> py_index len i = Some (Z.to_nat i).
Proof.
  intros Hi. unfold py_index.
  destruct (Z.ltb_spec i 0) as [?|_]; [lia|].
  destruct (Z.leb_spec 0 i) as [_|?]; [|lia].
  destruct (Z.ltb_spec i (Z.of_nat len)) as [_|?]; [reflexivity|lia].
Qed.

Lemma py_getitem_lookup {A : Type} (l : list A) (i : Z) (a : A) :
  0 <= i -> l !! Z.to_nat i = Some a -> py_getitem l i = inr a.
Proof.
  intros Hi Hl. unfold py_getitem.
  pose proof (lookup_lt_Some _ _ _ Hl) as Hlt.
  rewrite py_index_nonneg, Hl by lia. reflexivity.
Qed.

(** C8: on a column with room, [put_disc] appends the disc of the player
    to that column; the other columns and the parameters stay. *)
Theorem put_disc_appends (self : ConnectZ) (player : Player) (column : Z)
    (g : list (list Player)) (column_list : list Player)
    (Hcolumn : 1 <= column <= _x self)
    (Hgrid : _grid self = Some g)
    (Hlist : g !! Z.to_nat (column - 1) = Some column_list)
    (Hroom : Z.of_nat (length column_list) < _y self) :
  exists g',
    put_disc player column self
      = (inr tt, mkConnectZ (_x self) (_y self) (_z self) (_moves self) (Some g'))
    /\ length g' = length g
    /\ g' !! Z.to_nat (column - 1) = Some (column_list ++ [player])
    /\ forall i, i <> Z.to_nat (column - 1) -> g' !! i = g !! i.
Proof.
  pose proof (lookup_lt_Some _ _ _ Hlist) as Hlt.
  exists (<[Z.to_nat (column - 1) := column_list ++ [player]]> g).
  repeat split.
  - unfold put_disc, the_grid.
    destruct (Z.ltb_spec 0 column) as [_|?]; [|lia].
    destruct (Z.leb_spec column (_x self)) as [_|?]; [|lia].
    cbn [negb andb]. rewrite Hgrid.
    rewrite (py_getitem_lookup g (column - 1) column_list) by (assumption || lia).
    destruct (Z.geb_spec (Z.of_nat (length column_list)) (_y self)) as [?|_]; [lia|].
    rewrite py_index_nonneg by lia.
    reflexivity.
  - apply length_insert.
  - apply list_lookup_insert_eq, Hlt.
  - intros i Hi. apply list_lookup_insert_ne. congruence.
Qed.

Lemma put_disc_appends_witness :
  exists g',
    put_disc SECOND 2 (mkConnectZ 2 2 2 [2; 2] (Some [[]; [FIRST]]))
      = (inr tt, mkConnectZ 2 2 2 [2; 2] (Some g'))
    /\ length g' = 2%nat
    /\ g' !! 1%nat = Some [FIRST; SECOND]
    /\ forall i, i <> 1%nat -> g' !! i = [[]; [FIRST]] !! i.
Proof.
  apply (put_disc_appends (mkConnectZ 2 2 2 [2; 2] (Some [[]; [FIRST]]))
           SECOND 2 [[]; [FIRST]] [FIRST]).
  - simpl. lia.
  - reflexivity.
  - reflexivity.
  - simpl. lia.
Defined.

(** C9: when [put_disc] raises, and so when it raises the invalid-column
    or the column-overflow failure, the instance is as it was: no disc
    has been added. *)
Theorem put_disc_failure_keeps_board (self self' : ConnectZ)
    (player : Player) (column : Z) (e : Exc)
    (Hraise : put_disc player column self = (inl e, self'))
    (Hkind : e = InvalidColumnException column \/ e = ColumnToHighException column) :
  self' = self /\ _grid self' = _grid self.
Proof.
  clear Hkind. revert Hraise. unfold put_disc, set_grid.
  repeat match goal with
         | |- context [if ?b then _ else _] => destruct b
         | |- context [match ?t with _ => _ end] => destruct t
         end; intros [= <- <-] || intros [=]; split; reflexivity.
Qed.

Lemma put_disc_failure_keeps_board_witness :
  let self := mkConnectZ 2 2 2 [1; 1; 1] (Some [[FIRST; SECOND]; []]) in
  put_disc FIRST 1 self = (inl (ColumnToHighException 1), self)
  /\ snd (put_disc FIRST 1 self) = self
  /\ _grid (snd (put_disc FIRST 1 self)) = Some [[FIRST; SECOND]; []].
Proof.
  intros self. split; [reflexivity|].
  apply (put_disc_failure_keeps_board self (snd (put_disc FIRST 1 self))
           FIRST 1 (ColumnToHighException 1)).
  - reflexivity.
  - right. reflexivity.
Defined.

(** ** A log without moves *)

(** C1: with no move the loop of [play] never binds [player]; reading it
    after the loop raises [UnboundLocalError], which is not the
    missing-result failure. *)
Theorem play_without_moves (self : ConnectZ) (Hmoves : _moves self = []) :
  fst (play self) = inl UnboundLocalError
  /\ fst (play self) <> inl LackOfResultException.
Proof.
  assert (fst (play self) = inl UnboundLocalError) as H.
  { unfold play, play_moves, bind. rewrite Hmoves. reflexivity. }
  split; [exact H|]. rewrite H. discriminate.
Qed.

Lemma play_without_moves_witness :
  ConnectZ_init (readlines scenario_no_moves) = inr (mkConnectZ 1 1 1 [] None)
  /\ main (Some scenario_no_moves) = 1
  /\ fst (play (mkConnectZ 1 1 1 [] None)) = inl UnboundLocalError
  /\ fst (play (mkConnectZ 1 1 1 [] None)) <> inl LackOfResultException.
Proof.
  split; [reflexivity|]. split; [reflexivity|].
  apply (play_without_moves (mkConnectZ 1 1 1 [] None)). reflexivity.
Defined.

(** ** The scenario on the two by two board *)

(** C3, as the code runs it: after the third move FIRST holds both cells
    of row 0, so the fourth move raises the too-many-moves failure and the
    script exits with status 4. *)
Theorem scenario_two_by_two_too_many_moves :
  let self := mkConnectZ 2 2 2 [1; 1; 2; 2] None in
  let third := snd (play_moves (mkConnectZ 2 2 2 [1; 1; 2] None)) in
  ConnectZ_init (readlines scenario_two_by_two) = inr self
  /\ _grid third = Some [[FIRST; SECOND]; [FIRST]]
  /\ _get_or_none third 0 0 = inr (Some FIRST)
  /\ _get_or_none third 1 0 = inr (Some FIRST)
  /\ _check_for_result third FIRST = inr (Some FIRST_WON)
  /\ fst (play self) = inl ToManyMovesException
  /\ main (Some scenario_two_by_two) = 4.
Proof. vm_compute. repeat split. Qed.

(** C3 as the specification has it fails: [play] does not return [DRAW]
    and the exit status is not 0. *)
Lemma scenario_two_by_two_not_draw :
  fst (play (mkConnectZ 2 2 2 [1; 1; 2; 2] None)) <> inr DRAW
  /\ main (Some scenario_two_by_two) <> 0.
Proof. vm_compute. split; discriminate. Qed.

(** ** Lines of the input that are not integers *)

Lemma lstrip_all_space (s : string) :
  all_space s = true -> lstrip s = EmptyString.
Proof.
  induction s as [|a s IH]; [reflexivity|]. simpl.
  destruct (is_space a); [exact IH|discriminate].
Qed.

Lemma py_int_blank (s : string) : all_space s = true -> py_int s = None.
Proof. intros H. unfold py_int. rewrite (lstrip_all_space s H). reflexivity. Qed.

Local Open Scope string_scope.

Lemma lstrip_empty (s : string) : lstrip s = "" -> all_space s = true.
Proof.
  induction s as [|a s IH]; [reflexivity|]. simpl.
  destruct (is_space a); [exact IH|discriminate].
Qed.

Lemma all_space_newline (s : string) : all_space (s ++ newline) = all_space s.
Proof.
  induction s as [|a s IH]; [reflexivity|]. simpl. rewrite IH. reflexivity.
Qed.

Lemma lstrip_newline (s : string) :
  all_space s = false -> lstrip (s ++ newline) = lstrip s ++ newline.
Proof.
  induction s as [|a s IH]; [discriminate|]. simpl.
  destruct (is_space a); [exact IH|reflexivity].
Qed.

Lemma int_digits_newline (s : string) (acc : Z) (after_digit : bool) :
  int_digits (s ++ newline) acc after_digit = int_digits s acc after_digit.
Proof.
  revert acc after_digit. induction s as [|a s IH]; intros acc after_digit.
  - destruct after_digit; reflexivity.
  - simpl. destruct (is_digit a); [apply IH|].
    destruct (Ascii.eqb a "_"); [destruct after_digit; [apply IH|reflexivity]|].
    rewrite all_space_newline. reflexivity.
Qed.

(** The line feed at the end of a line does not change what [int] and
    [split] make of it. *)
Lemma py_int_newline (s : string) : py_int (s ++ newline) = py_int s.
Proof.
  destruct (all_space s) eqn:E.
  - rewrite !py_int_blank; [reflexivity|exact E|].
    rewrite all_space_newline. exact E.
  - unfold py_int. rewrite lstrip_newline by exact E.
    destruct (lstrip s) as [|c rest] eqn:El.
    + apply lstrip_empty in El. congruence.
    + change (String c rest ++ newline) with (String c (rest ++ newline)).
      pose proof (int_digits_newline (String c rest) 0 false) as Hall.
      change (String c rest ++ newline) with (String c (rest ++ newline)) in Hall.
      pose proof (int_digits_newline rest 0 false) as Hrest.
      destruct c as [[] [] [] [] [] [] [] []];
        first [exact Hall | exact Hrest | rewrite Hrest; reflexivity].
Qed.

Lemma split_newline (s : string) : split (s ++ newline) = split s.
Proof.
  induction s as [|a s IH]; [reflexivity|].
  change (String a s ++ newline) with (String a (s ++ newline)).
  cbn [split]. destruct (is_space a); [exact IH|].
  destruct s as [|b s]; [reflexivity|].
  change (String b s ++ newline) with (String b (s ++ newline)) in *.
  rewrite IH. reflexivity.
Qed.

Lemma readlines_cons (a : ascii) (rest : string) :
  readlines (String a rest)
  = if Ascii.eqb a "010" then String a "" :: readlines rest
    else match readlines rest with
         | [] => [String a ""]
         | l :: ls => String a l :: ls
         end.
Proof. reflexivity. Qed.

Lemma readlines_newline (s : string) :
  s <> "" -> ends_with_newline s = false ->
  Forall2 same_line (readlines s) (readlines (s ++ newline)).
Proof.
  induction s as [|a s IH]; [congruence|]. intros _ Hend.
  change (String a s ++ newline) with (String a (s ++ newline)).
  rewrite !readlines_cons.
  destruct s as [|b s].
  - simpl in Hend. rewrite Hend. simpl.
    constructor; [right; reflexivity|constructor].
  - assert (Forall2 same_line (readlines (String b s))
              (readlines (String b s ++ newline))) as H
      by (apply IH; [discriminate|exact Hend]).
    revert H.
    generalize (readlines (String b s ++ newline)) as ls'.
    generalize (readlines (String b s)) as ls. intros ls ls' H.
    destruct (Ascii.eqb a "010").
    + constructor; [left; reflexivity|exact H].
    + destruct H as [|l l' ls ls' Hl Hls].
      * constructor; [left; reflexivity|constructor].
      * constructor; [|exact Hls]. destruct Hl as [-> | ->];
          [left|right]; reflexivity.
Qed.

Lemma init_same_lines (text_io text_io' : list string) :
  Forall2 same_line text_io text_io' ->
  ConnectZ_init text_io' = ConnectZ_init text_io.
Proof.
  intros H. unfold ConnectZ_init.
  assert (split (hd "" text_io') = split (hd "" text_io)) as ->.
  { destruct H as [|l l' ls ls' [-> | ->] _]; simpl;
      [reflexivity|reflexivity|apply split_newline]. }
  assert (mapM py_int (tl text_io') = mapM py_int (tl text_io)) as ->.
  { destruct H as [|l l' ls ls' _ Hls]; [reflexivity|]. simpl.
    symmetry. apply Forall2_mapM_ext. eapply Forall2_impl; [exact Hls|].
    intros x y [-> | ->]; [reflexivity|]. symmetry. apply py_int_newline. }
  reflexivity.
Qed.

Local Close Scope string_scope.

(** C4, as the code runs it: a line after the first that is empty or
    blank is not skipped; like every other line [int] refuses, it makes
    [__init__] raise the parsing failure.  What is harmless is the line
    feed that ends the last line: it adds no line to the stream. *)
Theorem blank_or_malformed_line_is_parsing_problem :
  (forall (text_io : list string) (line : string),
      In line (tl text_io) ->
      all_space line = true \/ py_int line = None ->
      ConnectZ_init text_io = inl ParsingProblem)
  /\ (forall s : string,
        ends_with_newline s = false ->
        ConnectZ_init (readlines (s ++ newline)) = ConnectZ_init (readlines s)).
Proof.
  split.
  - intros text_io line Hline Hbad.
    assert (py_int line = None) as Hnone.
    { destruct Hbad as [Hblank|Hnone]; [apply py_int_blank, Hblank|exact Hnone]. }
    assert (mapM py_int (tl text_io) = None) as Hmoves.
    { apply mapM_None, Exists_exists. exists line. split; [|exact Hnone].
      apply list_elem_of_In, Hline. }
    unfold ConnectZ_init. rewrite Hmoves.
    destruct (map py_int (split (hd EmptyString text_io)))
      as [|[x|] [|[y|] [|[z|] [|? ?]]]]; reflexivity.
  - intros s Hend. destruct s as [|a s]; [reflexivity|].
    apply init_same_lines, readlines_newline; [discriminate|exact Hend].
Qed.

Lemma blank_or_malformed_line_is_parsing_problem_witness :
  readlines scenario_blank_line
    = [("1 1 1" ++ newline)%string; ("1" ++ newline)%string; newline]
  /\ ConnectZ_init (readlines scenario_blank_line) = inl ParsingProblem
  /\ ConnectZ_init (readlines ("1 1 1" ++ newline ++ "1" ++ newline)%string)
     = ConnectZ_init (readlines ("1 1 1" ++ newline ++ "1")%string).
Proof.
  destruct blank_or_malformed_line_is_parsing_problem as [Hbad Hend].
  split; [reflexivity|]. split.
  - apply (Hbad (readlines scenario_blank_line) newline).
    + simpl. right. left. reflexivity.
    + left. reflexivity.
  - apply (Hend ("1 1 1" ++ newline ++ "1")%string). reflexivity.
Defined.

(** C4 as the specification has it fails: the empty line that ends the
    stream below is not ignored.  Without it the log is read, with it
    [__init__] raises and the script exits with status 8. *)
Lemma trailing_empty_line_not_ignored :
  last (readlines scenario_blank_line) = Some newline
  /\ ConnectZ_init (readlines (("1 1 1" ++ newline ++ "1" ++ newline)%string))
     = inr (mkConnectZ 1 1 1 [1] None)
  /\ ConnectZ_init (readlines scenario_blank_line) = inl ParsingProblem
  /\ main (Some scenario_blank_line) = 8.
Proof. vm_compute. repeat split. Qed.

(** ** Scanning a line *)

Section Scan.

Variables (z : Z) (player : Player).

Local Abbreviation run n := (replicate n (Some player)).

Lemma has_run_prefix (line post : list (option Player)) :
  line = run (Z.to_nat z) ++ post -> has_run z player line.
Proof. intros ->. exists [], post. reflexivity. Qed.

Lemma has_run_cons (field : option Player) (line : list (option Player)) :
  has_run z player line -> has_run z player (field :: line).
Proof. intros (pre & post & ->). exists (field :: pre), post. reflexivity. Qed.

Lemma has_run_cons_inv (field : option Player) (line : list (option Player)) :
  has_run z player (field :: line) ->
  (exists post, field :: line = run (Z.to_nat z) ++ post)
  \/ has_run z player line.
Proof.
  intros ([|a pre] & post & H).
  - left. exists post. exact H.
  - right. injection H as _ ->. exists pre, post. reflexivity.
Qed.

Lemma scan_line_result (line : list (option Player)) (repeats : Z) :
  scan_line z player line repeats = None
  \/ scan_line z player line repeats = Some (GameResult_of_player player).
Proof.
  revert repeats. induction line as [|field line IH]; intros repeats; simpl.
  - destruct (repeats =? z); auto.
  - destruct (repeats =? z); [auto|].
    destruct (bool_decide (field = Some player)); apply IH.
Qed.

(** With [repeats] discs of the player just before [line], the scan
    succeeds when [line] starts with the missing ones, or holds a whole
    run further on. *)
Lemma scan_line_spec (line : list (option Player)) (repeats : Z) :
  0 <= repeats <= z ->
  scan_line z player line repeats = Some (GameResult_of_player player)
  <-> (exists post, line = run (Z.to_nat (z - repeats)) ++ post)
      \/ has_run z player line.
Proof.
  revert repeats. induction line as [|field line IH]; intros repeats Hr; simpl.
  - destruct (Z.eqb_spec repeats z) as [->|Hne].
    + split; [intros _|reflexivity]. left. exists [].
      rewrite Z.sub_diag. reflexivity.
    + split; [discriminate|]. intros [(post & H)|(pre & post & H)]; exfalso.
      * destruct (Z.to_nat (z - repeats)) eqn:E; [lia|discriminate].
      * destruct (Z.to_nat z) eqn:E; [lia|]. destruct pre; discriminate.
  - destruct (Z.eqb_spec repeats z) as [->|Hne].
    { split; [intros _|reflexivity]. left. exists (field :: line).
      rewrite Z.sub_diag. reflexivity. }
    assert (Z.to_nat (z - repeats) = S (Z.to_nat (z - (repeats + 1)))) as Hs by lia.
    destruct (bool_decide_reflect (field = Some player)) as [->|Hfield].
    + rewrite IH by lia. rewrite Hs. split.
      * intros [(post & ->)|Hrun].
        -- left. exists post. reflexivity.
        -- right. apply has_run_cons, Hrun.
      * intros [(post & H)|Hrun].
        -- left. exists post. injection H as ->. reflexivity.
        -- apply has_run_cons_inv in Hrun as [(post & H)|Hrun]; [|right; exact Hrun].
           left. destruct (Z.to_nat z) as [|m] eqn:E; [lia|].
           injection H as ->.
           exists (run (m - Z.to_nat (z - (repeats + 1))) ++ post).
           rewrite app_assoc, <- replicate_add. do 2 f_equal. lia.
    + rewrite IH by lia. rewrite Z.sub_0_r, Hs. split.
      * intros [(post & ->)|Hrun]; right; apply has_run_cons;
          [eapply has_run_prefix; reflexivity|exact Hrun].
      * intros [(post & H)|Hrun].
        -- injection H as -> _. contradiction Hfield. reflexivity.
        -- apply has_run_cons_inv in Hrun as [(post & H)|Hrun]; [|right; exact Hrun].
           destruct (Z.to_nat z) as [|m] eqn:E; [lia|].
           injection H as -> _. contradiction Hfield. reflexivity.
Qed.

Lemma scan_line_run (line : list (option Player)) :
  0 <= z ->
  scan_line z player line 0 = Some (GameResult_of_player player)
  <-> has_run z player line.
Proof.
  intros Hz. rewrite scan_line_spec, Z.sub_0_r by lia. split.
  - intros [(post & H)|H]; [eapply has_run_prefix, H|exact H].
  - auto.
Qed.

Lemma scan_line_no_run (line : list (option Player)) :
  0 <= z ->
  scan_line z player line 0 = None <-> ~ has_run z player line.
Proof.
  intros Hz. rewrite <- scan_line_run by exact Hz.
  destruct (scan_line_result line 0) as [-> | ->]; split; congruence.
Qed.

(** A cell that does not hold a disc of the player, an empty one in
    particular, resets the counter. *)
Lemma scan_line_reset (field : option Player) (line : list (option Player))
    (repeats : Z) :
  field <> Some player -> repeats <> z ->
  scan_line z player (field :: line) repeats = scan_line z player line 0.
Proof.
  intros Hfield Hr. simpl.
  destruct (Z.eqb_spec repeats z); [contradiction|].
  destruct (bool_decide_reflect (field = Some player)); [contradiction|reflexivity].
Qed.

End Scan.

Lemma get_or_none_above (self : ConnectZ) (g : list (list Player))
    (column : list Player) (x y : Z) :
  _grid self = Some g -> 0 <= x -> g !! Z.to_nat x = Some column ->
  Z.of_nat (length column) <= y ->
  _get_or_none self x y = inr None.
Proof.
  intros Hg Hx Hcol Hy. unfold _get_or_none, the_grid. rewrite Hg. simpl.
  rewrite (py_getitem_lookup g x column Hx Hcol). simpl.
  destruct (Z.geb_spec y (Z.of_nat (length column))); [reflexivity|lia].
Qed.

(** C5: the scan of a line reports the win of a player exactly when the
    line holds [_z] consecutive cells of that player, and nothing
    otherwise; a cell at or above the height of its column reads as empty,
    and an empty cell sets the counter back to 0. *)
Theorem check_for_result_in_line_iff_run (self : ConnectZ)
    (line : list (option Player)) (player : Player)
    (Hz : 0 <= _z self) :
  (_check_for_result_in_line self line player = Some (GameResult_of_player player)
   <-> has_run (_z self) player line)
  /\ (_check_for_result_in_line self line player = None
      <-> ~ has_run (_z self) player line)
  /\ (forall g column x y,
        _grid self = Some g -> 0 <= x -> g !! Z.to_nat x = Some column ->
        Z.of_nat (length column) <= y -> _get_or_none self x y = inr None)
  /\ (forall rest repeats,
        repeats <> _z self ->
        scan_line (_z self) player (None :: rest) repeats
        = scan_line (_z self) player rest 0).
Proof.
  unfold _check_for_result_in_line. repeat split.
  - apply scan_line_run, Hz.
  - apply scan_line_run, Hz.
  - apply scan_line_no_run, Hz.
  - apply scan_line_no_run, Hz.
  - intros g column x y. apply get_or_none_above.
  - intros rest repeats Hr. apply scan_line_reset; [discriminate|exact Hr].
Qed.

Lemma check_for_result_in_line_iff_run_witness :
  let self := mkConnectZ 4 3 2 [] (Some [[FIRST]; []; [FIRST]; [FIRST]]) in
  _check_for_result_in_line self [Some FIRST; None; Some FIRST; Some FIRST] FIRST
    = Some FIRST_WON
  /\ has_run 2 FIRST [Some FIRST; None; Some FIRST; Some FIRST]
  /\ _check_for_result_in_line self [Some FIRST; None; Some FIRST] FIRST = None
  /\ ~ has_run 2 FIRST [Some FIRST; None; Some FIRST].
Proof.
  intros self.
  pose proof (check_for_result_in_line_iff_run self
                [Some FIRST; None; Some FIRST; Some FIRST] FIRST) as H1.
  pose proof (check_for_result_in_line_iff_run self
                [Some FIRST; None; Some FIRST] FIRST) as H2.
  split; [reflexivity|]. split.
  - apply H1; [simpl; lia|reflexivity].
  - split; [reflexivity|]. apply H2; [simpl; lia|reflexivity].
Defined.

(** ** The lines of a grid with one list per column *)

Lemma res_mapM_pure {A B : Type} (f : A -> res B) (f' : A -> B) (l : list A) :
  (forall a, In a l -> f a = inr (f' a)) -> res_mapM f l = inr (map f' l).
Proof.
  induction l as [|a l IH]; intros H; simpl; [reflexivity|].
  rewrite (H a) by (left; reflexivity). simpl.
  rewrite IH by (intros b Hb; apply H; right; exact Hb). reflexivity.
Qed.

Lemma in_range (start stop k : Z) :
  In k (range start stop) <-> start <= k < stop.
Proof. unfold range. rewrite <- list_elem_of_In, elem_of_seqZ. lia. Qed.

Lemma in_range_down (start stop k : Z) :
  In k (range_down start stop) <-> stop < k <= start.
Proof.
  unfold range_down. rewrite in_map_iff. split.
  - intros (j & <- & Hj). apply list_elem_of_In, elem_of_seqZ in Hj. lia.
  - intros Hk. exists (start - k). split; [lia|].
    apply list_elem_of_In, elem_of_seqZ. lia.
Qed.

Lemma in_zip {A B : Type} (l : list A) (k : list B) (a : A) (b : B) :
  In (a, b) (zip l k) -> In a l /\ In b k.
Proof.
  intros H. split; [eapply in_combine_l|eapply in_combine_r]; exact H.
Qed.

Lemma diagonals_in_range (self : ConnectZ) (diagonal : list (Z * Z)) (c : Z * Z) :
  In diagonal (_diagonals self) -> In c diagonal ->
  0 <= c.1 < _x self /\ 0 <= c.2.
Proof.
  unfold _diagonals. intros Hd Hc.
  apply in_flat_map in Hd as (x & Hx & Hd).
  apply in_flat_map in Hd as (y & Hy & Hd).
  apply in_range in Hx. apply in_range in Hy. destruct c as [a b].
  destruct Hd as [<-|[<-|[]]]; apply in_zip in Hc as [Ha Hb];
    apply in_range in Hb; simpl.
  - apply in_range in Ha. lia.
  - apply in_range_down in Ha. lia.
Qed.

Lemma get_or_none_cell (self : ConnectZ) (g : list (list Player)) (x y : Z) :
  _grid self = Some g -> 0 <= x < Z.of_nat (length g) -> 0 <= y ->
  _get_or_none self x y = inr (cell g x y).
Proof.
  intros Hg Hx Hy. unfold _get_or_none, the_grid, cell. rewrite Hg. simpl.
  destruct (lookup_lt_is_Some_2 g (Z.to_nat x)) as [column Hcol]; [lia|].
  rewrite (py_getitem_lookup g x column) by (lia || assumption).
  rewrite Hcol. simpl.
  destruct (Z.geb_spec y (Z.of_nat (length column))) as [Hge|Hlt].
  - symmetry. f_equal. apply lookup_ge_None. lia.
  - destruct (lookup_lt_is_Some_2 column (Z.to_nat y)) as [p Hp]; [lia|].
    rewrite (py_getitem_lookup column y p) by (lia || assumption).
    rewrite Hp. reflexivity.
Qed.

Lemma possible_lines_well_formed (self : ConnectZ) (g : list (list Player)) :
  _grid self = Some g -> length g = Z.to_nat (_x self) ->
  _possible_lines self = map inr (lines_of self g).
Proof.
  intros Hg Hlen. unfold _possible_lines, lines_of, the_grid. rewrite Hg.
  rewrite !map_app, !map_map. do 2 f_equal.
  - apply map_ext_in. intros y Hy. apply in_range in Hy.
    apply res_mapM_pure. intros x Hx. apply in_range in Hx.
    apply get_or_none_cell; [assumption|lia|lia].
  - apply map_ext_in. intros diagonal Hd.
    apply res_mapM_pure. intros [x y] Hc.
    destruct (diagonals_in_range self diagonal (x, y) Hd Hc) as [Hx Hy].
    apply get_or_none_cell; simpl in *; [assumption|lia|lia].
Qed.

Lemma winning_line_lines_of (self : ConnectZ) (g : list (list Player))
    (player : Player) :
  _grid self = Some g -> length g = Z.to_nat (_x self) ->
  winning_line self player
  <-> exists line, In line (lines_of self g) /\ has_run (_z self) player line.
Proof.
  intros Hg Hlen. unfold winning_line.
  rewrite (possible_lines_well_formed self g Hg Hlen). split.
  - intros (line & Hin & Hrun). exists line. split; [|exact Hrun].
    apply in_map_iff in Hin as (line' & [= ->] & Hin). exact Hin.
  - intros (line & Hin & Hrun). exists line. split; [|exact Hrun].
    apply in_map, Hin.
Qed.

Lemma first_result_cases (self : ConnectZ) (player : Player)
    (lines : list (list (option Player))) :
  0 <= _z self ->
  ((exists line, In line lines /\ has_run (_z self) player line)
   /\ first_result self player (map inr lines)
      = inr (Some (GameResult_of_player player)))
  \/ ((forall line, In line lines -> ~ has_run (_z self) player line)
      /\ first_result self player (map inr lines) = first_result self player []).
Proof.
  intros Hz. induction lines as [|line lines IH].
  - right. split; [intros line []|reflexivity].
  - cbn [map first_result res_bind]. unfold _check_for_result_in_line.
    destruct (scan_line_result (_z self) player line 0) as [Hscan|Hscan];
      rewrite Hscan.
    + apply scan_line_no_run in Hscan; [|exact Hz].
      destruct IH as [((l & Hin & Hrun) & Heq)|(Hnone & Heq)].
      * left. split; [|exact Heq]. exists l. split; [right; exact Hin|exact Hrun].
      * right. split; [|exact Heq]. intros l [<-|Hin]; [exact Hscan|apply Hnone, Hin].
    + apply scan_line_run in Hscan; [|exact Hz].
      left. split; [|reflexivity]. exists line. split; [left; reflexivity|exact Hscan].
Qed.

Lemma board_full_columns_full (self : ConnectZ) (g : list (list Player)) :
  _grid self = Some g -> board_full self <-> columns_full self g = true.
Proof.
  intros Hg. unfold board_full, columns_full. rewrite forallb_forall. split.
  - intros (g' & Hg' & Hall) column Hin. rewrite Hg in Hg'. injection Hg' as <-.
    rewrite Forall_forall in Hall. apply Z.eqb_eq, Hall, list_elem_of_In, Hin.
  - intros Hall. exists g. split; [exact Hg|]. apply Forall_forall.
    intros column Hin. apply Z.eqb_eq, Hall, list_elem_of_In, Hin.
Qed.

(** What [_check_for_result] returns on a grid with one list per column. *)
Lemma check_for_result_cases (self : ConnectZ) (g : list (list Player))
    (player : Player) :
  _grid self = Some g -> length g = Z.to_nat (_x self) -> 0 <= _z self ->
  (winning_line self player
   /\ _check_for_result self player = inr (Some (GameResult_of_player player)))
  \/ (~ winning_line self player
      /\ _check_for_result self player
         = inr (if columns_full self g then Some DRAW else None)).
Proof.
  intros Hg Hlen Hz. unfold _check_for_result.
  rewrite (winning_line_lines_of self g player Hg Hlen).
  rewrite (possible_lines_well_formed self g Hg Hlen).
  destruct (first_result_cases self player (lines_of self g) Hz)
    as [(Hwin & Heq)|(Hnone & Heq)]; [left|right]; (split; [|rewrite Heq]).
  - exact Hwin.
  - reflexivity.
  - intros (line & Hin & Hrun). exact (Hnone line Hin Hrun).
  - cbn [first_result]. unfold _check_for_draw, the_grid. rewrite Hg. reflexivity.
Qed.

(** ** The diagonals *)

Lemma zip_app {A B : Type} (l1 l2 : list A) (k1 k2 : list B) :
  length l1 = length k1 ->
  zip (l1 ++ l2) (k1 ++ k2) = zip l1 k1 ++ zip l2 k2.
Proof.
  unfold zip. revert k1. induction l1 as [|a l1 IH]; intros [|b k1] Hlen;
    try discriminate; [reflexivity|].
  simpl in *. rewrite IH by congruence. reflexivity.
Qed.

Lemma zip_map_same {A B C : Type} (f : A -> B) (g : A -> C) (l : list A) :
  zip (map f l) (map g l) = map (fun a => (f a, g a)) l.
Proof.
  unfold zip. induction l as [|a l IH]; [reflexivity|]. simpl.
  rewrite IH. reflexivity.
Qed.

Lemma range_split (start stop n : Z) :
  0 <= n -> start + n <= stop ->
  range start stop = map (Z.add start) (seqZ 0 n) ++ range (start + n) stop.
Proof.
  intros Hn Hstop. unfold range.
  replace (stop - start) with (n + (stop - (start + n))) by lia.
  rewrite seqZ_app by lia.
  change (map (Z.add start) (seqZ 0 n)) with (Z.add start <$> seqZ 0 n).
  rewrite fmap_add_seqZ, Z.add_0_r. reflexivity.
Qed.

Lemma range_down_split (start n : Z) :
  0 <= n -> n <= start + 1 ->
  range_down start (-1)
  = map (fun k => start - k) (seqZ 0 n) ++ range_down (start - n) (-1).
Proof.
  intros Hn Hstart. unfold range_down.
  replace (start - -1) with (n + (start - n - -1)) by lia.
  rewrite seqZ_app, map_app by lia. f_equal.
  rewrite Z.add_0_l.
  replace (seqZ n (start - n - -1)) with (Z.add n <$> seqZ 0 (start - n - -1))
    by (rewrite fmap_add_seqZ; f_equal; lia).
  change (map (fun k => start - k) (Z.add n <$> seqZ 0 (start - n - -1)))
    with (map (fun k => start - k) (map (Z.add n) (seqZ 0 (start - n - -1)))).
  rewrite map_map. apply map_ext. intros k. lia.
Qed.

Lemma in_diagonals (self : ConnectZ) (x y : Z) :
  0 <= x < _x self + 1 - _z self -> 0 <= y < _y self + 1 - _z self ->
  In (zip (range x (_x self)) (range y (_y self))) (_diagonals self)
  /\ In (zip (range_down (_x self - 1 - x) (-1)) (range y (_y self)))
       (_diagonals self).
Proof.
  intros Hx Hy. unfold _diagonals.
  split; apply in_flat_map; exists x; (split; [apply in_range; lia|]);
    apply in_flat_map; exists y; (split; [apply in_range; lia|]).
  - left. reflexivity.
  - right. left. reflexivity.
Qed.

Lemma ascending_covered (self : ConnectZ) (x y : Z) :
  1 <= _z self ->
  Forall (on_board self) (ascending x y (_z self)) ->
  exists diagonal rest,
    In diagonal (_diagonals self)
    /\ diagonal = ascending x y (_z self) ++ rest.
Proof.
  intros Hz Hboard. rewrite Forall_forall in Hboard.
  assert (on_board self (x + 0, y + 0)) as [H0x H0y].
  { apply Hboard, list_elem_of_In, in_map_iff. exists 0. split; [reflexivity|].
    apply list_elem_of_In, elem_of_seqZ. lia. }
  assert (on_board self (x + (_z self - 1), y + (_z self - 1))) as [H1x H1y].
  { apply Hboard, list_elem_of_In, in_map_iff. exists (_z self - 1).
    split; [reflexivity|]. apply list_elem_of_In, elem_of_seqZ. lia. }
  simpl in *.
  exists (zip (range x (_x self)) (range y (_y self))),
    (zip (range (x + _z self) (_x self)) (range (y + _z self) (_y self))).
  split; [apply in_diagonals; lia|].
  rewrite (range_split x (_x self) (_z self)) by lia.
  rewrite (range_split y (_y self) (_z self)) by lia.
  rewrite zip_app by (rewrite !length_map; reflexivity).
  rewrite zip_map_same. reflexivity.
Qed.

Lemma descending_covered (self : ConnectZ) (x y : Z) :
  1 <= _z self ->
  Forall (on_board self) (descending x y (_z self)) ->
  exists diagonal rest,
    In diagonal (_diagonals self)
    /\ diagonal = descending x y (_z self) ++ rest.
Proof.
  intros Hz Hboard. rewrite Forall_forall in Hboard.
  assert (on_board self (x - 0, y + 0)) as [H0x H0y].
  { apply Hboard, list_elem_of_In, in_map_iff. exists 0. split; [reflexivity|].
    apply list_elem_of_In, elem_of_seqZ. lia. }
  assert (on_board self (x - (_z self - 1), y + (_z self - 1))) as [H1x H1y].
  { apply Hboard, list_elem_of_In, in_map_iff. exists (_z self - 1).
    split; [reflexivity|]. apply list_elem_of_In, elem_of_seqZ. lia. }
  simpl in *.
  exists (zip (range_down (_x self - 1 - (_x self - 1 - x)) (-1)) (range y (_y self))),
    (zip (range_down (x - _z self) (-1)) (range (y + _z self) (_y self))).
  split; [apply in_diagonals; lia|].
  replace (_x self - 1 - (_x self - 1 - x)) with x by lia.
  rewrite (range_down_split x (_z self)) by lia.
  rewrite (range_split y (_y self) (_z self)) by lia.
  rewrite zip_app by (rewrite !length_map; reflexivity).
  rewrite zip_map_same. reflexivity.
Qed.

Lemma segment_length (x y n : Z) :
  length (ascending x y n) = Z.to_nat n /\ length (descending x y n) = Z.to_nat n.
Proof.
  unfold ascending, descending. rewrite !length_map, length_seqZ. auto.
Qed.

(** C6: a diagonal segment of [_z] cells of the board, of either slope,
    is the initial part of a diagonal that [_diagonals] yields; so when
    its cells all hold a disc of one player, the win detector finds the
    win of that player. *)
Theorem diagonals_cover (self : ConnectZ) (x y : Z) (segment : list (Z * Z))
    (Hz : 1 <= _z self)
    (Hsegment : segment = ascending x y (_z self)
                \/ segment = descending x y (_z self))
    (Hboard : Forall (on_board self) segment) :
  (exists diagonal rest,
      In diagonal (_diagonals self) /\ diagonal = segment ++ rest)
  /\ forall player,
      well_formed self ->
      Forall (fun c => _get_or_none self c.1 c.2 = inr (Some player)) segment ->
      winning_line self player
      /\ _check_for_result self player = inr (Some (GameResult_of_player player)).
Proof.
  assert (exists diagonal rest,
             In diagonal (_diagonals self) /\ diagonal = segment ++ rest)
    as Hcover.
  { destruct Hsegment as [-> | ->];
      [apply ascending_covered|apply descending_covered]; assumption. }
  split; [exact Hcover|].
  intros player (g & Hg & Hlen) Hcells.
  assert (length segment = Z.to_nat (_z self)) as Hseglen.
  { destruct Hsegment as [-> | ->]; apply segment_length. }
  assert (winning_line self player) as Hwin.
  { apply (winning_line_lines_of self g player Hg Hlen).
    destruct Hcover as (diagonal & rest & Hin & ->).
    exists (map (fun c : Z * Z => cell g c.1 c.2) (segment ++ rest)). split.
    - unfold lines_of. apply in_or_app. right. apply in_or_app. right.
      apply in_map, Hin.
    - exists [], (map (fun c : Z * Z => cell g c.1 c.2) rest).
      rewrite map_app. simpl. f_equal. rewrite <- Hseglen.
      symmetry. apply replicate_as_Forall. split; [apply length_map|].
      apply Forall_forall. intros v Hv.
      apply list_elem_of_In, in_map_iff in Hv as (c & <- & Hc).
      rewrite Forall_forall in Hcells, Hboard.
      apply list_elem_of_In in Hc.
      specialize (Hcells c Hc). destruct (Hboard c Hc) as [Hcx Hcy].
      rewrite (get_or_none_cell self g c.1 c.2) in Hcells by (assumption || lia).
      congruence. }
  split; [exact Hwin|].
  destruct (check_for_result_cases self g player Hg Hlen) as [[_ H]|[H _]];
    [lia|exact H|contradiction].
Qed.

Lemma diagonals_cover_witness :
  let self := mkConnectZ 3 3 2 [] (Some [[FIRST]; [FIRST; SECOND]; [SECOND]]) in
  (exists diagonal rest,
      In diagonal (_diagonals self) /\ diagonal = [(2, 0); (1, 1)] ++ rest)
  /\ winning_line self SECOND
  /\ _check_for_result self SECOND = inr (Some SECOND_WON).
Proof.
  intros self.
  destruct (diagonals_cover self 2 0 [(2, 0); (1, 1)]) as [Hcover Hscan].
  - simpl. lia.
  - right. reflexivity.
  - repeat constructor; simpl; lia.
  - split; [exact Hcover|]. apply (Hscan SECOND).
    + exists [[FIRST]; [FIRST; SECOND]; [SECOND]]. split; reflexivity.
    + repeat constructor.
Defined.

(** ** One move of the log *)

Lemma put_disc_not_too_many_moves (self : ConnectZ) (player : Player) (column : Z) :
  fst (put_disc player column self) <> inl ToManyMovesException.
Proof.
  unfold put_disc, set_grid.
  repeat match goal with
         | |- context [if ?b then _ else _] => destruct b
         | |- context [match ?t with _ => _ end] => destruct t eqn:?
         end; simpl; try discriminate.
  all: unfold the_grid, py_getitem in *;
    repeat match goal with
           | H : context [match ?t with _ => _ end] |- _ => destruct t; try discriminate
           end; congruence.
Qed.

Lemma put_disc_column_full (self : ConnectZ) (player : Player) (column : Z)
    (g : list (list Player)) (column_list : list Player) :
  1 <= column <= _x self -> _grid self = Some g ->
  g !! Z.to_nat (column - 1) = Some column_list ->
  _y self <= Z.of_nat (length column_list) ->
  put_disc player column self = (inl (ColumnToHighException column), self).
Proof.
  intros Hcolumn Hg Hlist Hfull. unfold put_disc, the_grid.
  destruct (Z.ltb_spec 0 column) as [_|?]; [|lia].
  destruct (Z.leb_spec column (_x self)) as [_|?]; [|lia].
  cbn [negb andb]. rewrite Hg.
  rewrite (py_getitem_lookup g (column - 1) column_list) by (assumption || lia).
  destruct (Z.geb_spec (Z.of_nat (length column_list)) (_y self)); [reflexivity|lia].
Qed.

Lemma play_move_unfold (self : ConnectZ) (column : Z) (player : Player) :
  play_move column player self
  = match _check_for_result self (get_second_user player) with
    | inl e => (inl e, self)
    | inr r =>
        if truthy r then (inl ToManyMovesException, self)
        else put_disc player column self
    end.
Proof.
  unfold play_move, bind, reading, raise.
  destruct (_check_for_result self (get_second_user player)) as [e|r];
    [reflexivity|]. destruct (truthy r); reflexivity.
Qed.

(** C2, as the code runs it: a move raises the too-many-moves failure
    exactly when the previous mover has a winning line or the board is
    full; on a board that is neither won by the previous mover nor full, a
    move into a column that holds [_y] discs raises the column-overflow
    failure. *)
Theorem too_many_moves_iff (self : ConnectZ) (column : Z) (player : Player)
    (Hz : 1 <= _z self) (Hwf : well_formed self) :
  (fst (play_move column player self) = inl ToManyMovesException
   <-> winning_line self (get_second_user player) \/ board_full self)
  /\ (forall g column_list,
        ~ winning_line self (get_second_user player) ->
        ~ board_full self ->
        1 <= column <= _x self ->
        _grid self = Some g ->
        g !! Z.to_nat (column - 1) = Some column_list ->
        _y self <= Z.of_nat (length column_list) ->
        play_move column player self
        = (inl (ColumnToHighException column), self)).
Proof.
  destruct Hwf as (g & Hg & Hlen).
  pose proof (board_full_columns_full self g Hg) as Hfull.
  rewrite play_move_unfold.
  destruct (check_for_result_cases self g (get_second_user player) Hg Hlen)
    as [[Hwin ->]|[Hnot ->]]; [lia| |].
  - split; [split; auto|]. intros; contradiction.
  - destruct (columns_full self g) eqn:Hcols; simpl.
    + split; [split; [intros _; right; apply Hfull; reflexivity|reflexivity]|].
      intros g' column_list _ Hnf. contradiction Hnf. apply Hfull. reflexivity.
    + split.
      * split.
        -- intros H. contradiction (put_disc_not_too_many_moves self player column).
        -- intros [Hwin|Hf]; [contradiction|].
           apply Hfull in Hf. discriminate.
      * intros g' column_list _ _ Hcolumn Hg' Hlist Hheight.
        apply (put_disc_column_full self player column g' column_list); assumption.
Qed.

Lemma too_many_moves_iff_witness :
  let won := mkConnectZ 2 2 2 [1; 2; 1; 2] (Some [[FIRST; FIRST]; [SECOND]]) in
  let high := mkConnectZ 2 2 2 [1; 1; 1] (Some [[FIRST; SECOND]; []]) in
  (fst (play_move 2 SECOND won) = inl ToManyMovesException
   <-> winning_line won (get_second_user SECOND) \/ board_full won)
  /\ play_move 1 FIRST high = (inl (ColumnToHighException 1), high).
Proof.
  intros won high. split.
  - apply (too_many_moves_iff won 2 SECOND).
    + simpl. lia.
    + exists [[FIRST; FIRST]; [SECOND]]. split; reflexivity.
  - reflexivity.
Defined.

(** C2 as the specification has it fails.  After the moves 1, 1 on the
    board of one column and two rows the column holds its two discs and no
    player has a winning line; the third move, into that column, raises
    the too-many-moves failure, not the column-overflow failure. *)
Lemma full_board_move_too_many_moves :
  let self := mkConnectZ 1 2 2 [1; 1; 1] (Some [[FIRST; SECOND]]) in
  ConnectZ_init (readlines scenario_full_column)
    = inr (mkConnectZ 1 2 2 [1; 1; 1] None)
  /\ _grid (snd (play_moves (mkConnectZ 1 2 2 [1; 1] None))) = _grid self
  /\ ~ winning_line self FIRST
  /\ ~ winning_line self SECOND
  /\ fst (play_move 1 FIRST self) = inl ToManyMovesException
  /\ fst (play_move 1 FIRST self) <> inl (ColumnToHighException 1)
  /\ fst (play (mkConnectZ 1 2 2 [1; 1; 1] None)) = inl ToManyMovesException
  /\ main (Some scenario_full_column) = 4.
Proof.
  intros self.
  assert (forall p, ~ winning_line self p) as Hnone.
  { intros p.
    destruct (check_for_result_cases self [[FIRST; SECOND]] p) as [[_ H]|[H _]];
      [reflexivity|reflexivity|simpl; lia| |exact H].
    destruct p; vm_compute in H; discriminate. }
  split; [reflexivity|]. split; [reflexivity|].
  split; [apply Hnone|]. split; [apply Hnone|].
  split; [reflexivity|]. split; [vm_compute; discriminate|].
  split; reflexivity.
Qed.

(** ** The whole game *)

Lemma put_disc_done (self self' : ConnectZ) (player : Player) (column : Z) :
  put_disc player column self = (inr tt, self') ->
  exists g n column_list,
    _grid self = Some g /\ g !! n = Some column_list
    /\ self' = mkConnectZ (_x self) (_y self) (_z self) (_moves self)
                 (Some (<[n := column_list ++ [player]]> g)).
Proof.
  unfold put_disc, the_grid, py_getitem, set_grid.
  destruct (negb _); [discriminate|].
  destruct (_grid self) as [g|]; [|discriminate].
  destruct (py_index (length g) (column - 1)) as [n|]; [|discriminate].
  destruct (g !! n) as [column_list|] eqn:Hn; [|discriminate].
  destruct (_ >=? _); [discriminate|].
  intros [= <-]. exists g, n, column_list. auto.
Qed.

Lemma put_disc_well_formed (self self' : ConnectZ) (player : Player) (column : Z) :
  put_disc player column self = (inr tt, self') ->
  well_formed self -> well_formed self' /\ same_parameters self self'.
Proof.
  intros H (g & Hg & Hlen).
  apply put_disc_done in H as (g' & n & column_list & Hg' & _ & ->).
  rewrite Hg in Hg'. injection Hg' as <-. split.
  - eexists. split; [reflexivity|]. rewrite length_insert. exact Hlen.
  - repeat split.
Qed.

Lemma has_run_before_other (z : Z) (p q : Player) (line : list (option Player)) :
  1 <= z -> q <> p ->
  has_run z q (line ++ [Some p]) -> has_run z q line.
Proof.
  intros Hz Hne (pre & post & H).
  destruct (Z.to_nat z) as [|m] eqn:E; [lia|].
  destruct post as [|a post _] using rev_ind.
  - rewrite app_nil_r, replicate_S_end, app_assoc in H.
    apply app_inj_tail in H as [_ [= ->]]. contradiction Hne. reflexivity.
  - rewrite !app_assoc in H. apply app_inj_tail in H as [-> _].
    exists pre, post. rewrite E, app_assoc. reflexivity.
Qed.

Lemma has_run_map {A : Type} (z : Z) (q : Player) (f f' : A -> option Player)
    (l : list A) :
  (forall a, f' a = Some q -> f a = Some q) ->
  has_run z q (map f' l) -> has_run z q (map f l).
Proof.
  intros Hf (pre & post & H).
  apply map_eq_app in H as (l1 & l23 & -> & <- & H).
  apply map_eq_app in H as (l2 & l3 & -> & Hrun & <-).
  exists (map f l1), (map f l3). rewrite !map_app. do 2 f_equal.
  symmetry in Hrun. apply replicate_as_Forall in Hrun as [Hlen Hall]. symmetry.
  apply replicate_as_Forall. rewrite length_map in *. split; [exact Hlen|].
  apply Forall_forall. intros v Hv.
  apply list_elem_of_In, in_map_iff in Hv as (a & <- & Ha).
  symmetry. apply Hf. symmetry.
  rewrite Forall_forall in Hall. apply Hall, list_elem_of_In, in_map, Ha.
Qed.

Lemma cell_after_disc (g : list (list Player)) (n : nat)
    (column_list : list Player) (p q : Player) (x y : Z) :
  g !! n = Some column_list -> q <> p ->
  cell (<[n := column_list ++ [p]]> g) x y = Some q -> cell g x y = Some q.
Proof.
  intros Hn Hne. unfold cell.
  destruct (decide (n = Z.to_nat x)) as [<-|Hx].
  - rewrite list_lookup_insert_eq by (eapply lookup_lt_Some, Hn). rewrite Hn.
    intros H. pose proof (lookup_lt_Some _ _ _ H) as Hlt.
    rewrite length_app in Hlt. simpl in Hlt.
    destruct (decide (Z.to_nat y < length column_list)%nat) as [Hy|Hy].
    + rewrite lookup_app_l in H by exact Hy. exact H.
    + replace (Z.to_nat y) with (length column_list + 0)%nat in H by lia.
      rewrite lookup_app_r in H by lia.
      replace (length column_list + 0 - length column_list)%nat with 0%nat in H by lia.
      injection H as ->. contradiction Hne. reflexivity.
  - rewrite list_lookup_insert_ne by exact Hx. auto.
Qed.

(** A disc of [p] gives the other player no new winning line. *)
Lemma winning_line_before_disc (self : ConnectZ) (g : list (list Player))
    (n : nat) (column_list : list Player) (p q : Player) :
  1 <= _z self -> q <> p ->
  _grid self = Some g -> length g = Z.to_nat (_x self) ->
  g !! n = Some column_list ->
  winning_line
    (mkConnectZ (_x self) (_y self) (_z self) (_moves self)
       (Some (<[n := column_list ++ [p]]> g))) q ->
  winning_line self q.
Proof.
  intros Hz Hne Hg Hlen Hn.
  set (g' := <[n := column_list ++ [p]]> g).
  set (self' := mkConnectZ _ _ _ _ _).
  rewrite (winning_line_lines_of self' g' q)
    by (reflexivity || (unfold g'; rewrite length_insert; exact Hlen)).
  rewrite (winning_line_lines_of self g q Hg Hlen).
  intros (line & Hin & Hrun). unfold lines_of in Hin. simpl in Hin, Hrun.
  change (_diagonals self') with (_diagonals self) in Hin.
  apply in_app_or in Hin as [Hin|Hin]; [|apply in_app_or in Hin as [Hin|Hin]].
  - apply in_map_iff in Hin as (column & <- & Hin).
    apply list_elem_of_In, list_elem_of_lookup in Hin as (i & Hi).
    unfold g' in Hi. destruct (decide (n = i)) as [<-|Hni].
    + rewrite list_lookup_insert_eq in Hi by (eapply lookup_lt_Some, Hn).
      injection Hi as <-. rewrite map_app in Hrun. simpl in Hrun.
      apply has_run_before_other in Hrun; [|assumption..].
      exists (map Some column_list). split; [|exact Hrun].
      unfold lines_of. apply in_or_app. left. apply in_map.
      apply list_elem_of_In, list_elem_of_lookup. exists n. exact Hn.
    + rewrite list_lookup_insert_ne in Hi by exact Hni.
      exists (map Some column). split; [|exact Hrun].
      unfold lines_of. apply in_or_app. left. apply in_map.
      apply list_elem_of_In, list_elem_of_lookup. exists i. exact Hi.
  - apply in_map_iff in Hin as (y & <- & Hin).
    exists (map (fun x => cell g x y) (range 0 (_x self))). split.
    + unfold lines_of. apply in_or_app. right. apply in_or_app. left.
      apply in_map_iff. exists y. split; [reflexivity|exact Hin].
    + revert Hrun. apply has_run_map. intros x.
      apply cell_after_disc; assumption.
  - apply in_map_iff in Hin as (diagonal & <- & Hin).
    exists (map (fun c : Z * Z => cell g c.1 c.2) diagonal). split.
    + unfold lines_of. apply in_or_app. right. apply in_or_app. right.
      apply in_map, Hin.
    + revert Hrun. apply has_run_map. intros c.
      apply cell_after_disc; assumption.
Qed.

Lemma same_parameters_trans (s1 s2 s3 : ConnectZ) :
  same_parameters s1 s2 -> same_parameters s2 s3 -> same_parameters s1 s3.
Proof. unfold same_parameters. intuition congruence. Qed.

Lemma play_move_done (self self' : ConnectZ) (column : Z) (player : Player) :
  play_move column player self = (inr tt, self') ->
  _check_for_result self (get_second_user player) = inr None
  /\ put_disc player column self = (inr tt, self').
Proof.
  rewrite play_move_unfold.
  destruct (_check_for_result self (get_second_user player)) as [e|[r|]];
    simpl; [discriminate|discriminate|auto].
Qed.

(** The state in which the last move of the loop was played. *)
Lemma play_loop_last (pairs : list (Z * Player)) (player : option Player)
    (self after : ConnectZ) (last : option Player) :
  well_formed self ->
  play_loop pairs player self = (inr last, after) ->
  well_formed after /\ same_parameters self after
  /\ ((last = player /\ after = self)
      \/ exists p column before,
          last = Some p /\ well_formed before /\ same_parameters self before
          /\ _check_for_result before (get_second_user p) = inr None
          /\ put_disc p column before = (inr tt, after)).
Proof.
  revert player self. induction pairs as [|[column p] pairs IH];
    intros player self Hwf Hloop.
  - injection Hloop as <- <-. repeat split; auto.
  - cbn [play_loop] in Hloop. unfold bind in Hloop.
    destruct (play_move column p self) as [[e|[]] middle] eqn:Hmove;
      [discriminate|].
    apply play_move_done in Hmove as [Hcheck Hput].
    destruct (put_disc_well_formed _ _ _ _ Hput Hwf) as [Hwf' Hsame].
    destruct (IH (Some p) middle Hwf' Hloop) as (Hwfa & Hsamea & Hlast).
    split; [exact Hwfa|].
    split; [eapply same_parameters_trans; eassumption|].
    right. destruct Hlast as [[-> ->]|(p' & c' & before & -> & Hb1 & Hb2 & Hb3 & Hb4)].
    + exists p, column, self. repeat split; auto.
    + exists p', c', before. repeat split; auto.
      all: destruct Hsame as (? & ? & ?), Hb2 as (? & ? & ?); congruence.
Qed.

Lemma play_moves_unfold (self : ConnectZ) :
  play_moves self
  = play_loop (zip_players (_moves self)) None
      (mkConnectZ (_x self) (_y self) (_z self) (_moves self)
         (Some (replicate (Z.to_nat (_x self)) []))).
Proof. reflexivity. Qed.

Lemma play_unfold (self : ConnectZ) :
  play self
  = match play_moves self with
    | (inl e, after) => (inl e, after)
    | (inr None, after) => (inl UnboundLocalError, after)
    | (inr (Some p), after) =>
        match _check_for_result after p with
        | inl e => (inl e, after)
        | inr None => (inl LackOfResultException, after)
        | inr (Some r) => (inr r, after)
        end
    end.
Proof.
  unfold play, bind. destruct (play_moves self) as [[e|[p|]] after];
    try reflexivity.
  unfold play_result, bind, reading.
  destruct (_check_for_result after p) as [e|[r|]]; reflexivity.
Qed.

Lemma valid_parameters_positive (x y z : Z) :
  invalid_parameters x y z = false -> 1 <= x /\ 1 <= y /\ 1 <= z.
Proof.
  unfold invalid_parameters. intros H.
  apply orb_false_elim in H as [_ H]. apply Z.ltb_ge in H. lia.
Qed.

(** C7: [play] returns [DRAW] exactly when its loop replays every move
    and leaves a board on which every column holds [_y] discs and no
    player has [_z] consecutive discs in a scanned line. *)
Theorem play_draw_iff (self : ConnectZ)
    (Hvalid : invalid_parameters (_x self) (_y self) (_z self) = false) :
  fst (play self) = inr DRAW
  <-> exists last after,
        play_moves self = (inr last, after)
        /\ board_full after
        /\ forall player, ~ winning_line after player.
Proof.
  apply valid_parameters_positive in Hvalid as (Hx & Hy & Hz).
  set (start := mkConnectZ (_x self) (_y self) (_z self) (_moves self)
                  (Some (replicate (Z.to_nat (_x self)) []))).
  assert (well_formed start) as Hstart.
  { eexists. split; [reflexivity|]. apply length_replicate. }
  rewrite play_unfold, play_moves_unfold. fold start.
  destruct (play_loop (zip_players (_moves self)) None start)
    as [[e|last] after] eqn:Hloop.
  { split; [discriminate|]. intros (? & ? & [=] & _). }
  destruct (play_loop_last _ _ _ _ _ Hstart Hloop)
    as ((g & Hg & Hlen) & (Hsx & Hsy & Hsz) & Hlast).
  simpl in Hsx, Hsy, Hsz.
  pose proof (board_full_columns_full after g Hg) as Hfull.
  destruct last as [p|].
  - destruct Hlast as [[[=] _]|(p' & column & before & [= <-] & Hb1 & Hb2 & Hb3 & Hb4)].
    destruct (check_for_result_cases after g p Hg Hlen ltac:(lia))
      as [[Hwin ->]|[Hnot ->]].
    + split.
      * simpl. intros [= H]. destruct p; discriminate.
      * intros (? & ? & [= <- <-] & _ & Hnone). contradiction (Hnone p).
    + destruct (columns_full after g) eqn:Hcols.
      * split; [intros _|reflexivity].
        exists (Some p), after. split; [reflexivity|].
        split; [apply Hfull; reflexivity|].
        intros q Hq. destruct (decide (q = p)) as [->|Hqp]; [contradiction|].
        destruct Hb1 as (gb & Hgb & Hlenb).
        destruct Hb2 as (Hbx & Hby & Hbz). simpl in Hbx, Hby, Hbz.
        destruct (check_for_result_cases before gb (get_second_user p) Hgb Hlenb
                    ltac:(lia)) as [[_ H]|[Hnob _]]; [congruence|].
        apply Hnob. replace (get_second_user p) with q
          by (destruct p, q; try reflexivity; contradiction Hqp; reflexivity).
        apply put_disc_done in Hb4 as (gb' & n & column_list & Hgb' & Hn & ->).
        rewrite Hgb in Hgb'. injection Hgb' as <-.
        eapply (winning_line_before_disc before gb n column_list p q);
          try eassumption. lia.
      * split; [discriminate|]. intros (? & ? & [= <- <-] & Hf & _).
        apply Hfull in Hf. discriminate.
  - split; [discriminate|]. intros (? & ? & [= <- <-] & Hf & _). exfalso.
    destruct Hlast as [[_ ->]|(? & ? & ? & [=] & _)].
    destruct Hf as (g' & [= <-] & Hall).
    destruct (Z.to_nat (_x self)) as [|m] eqn:E; [lia|].
    apply Forall_cons in Hall as [Hhd _]. simpl in Hhd. lia.
Qed.

Lemma play_draw_iff_witness :
  let self := mkConnectZ 3 1 3 [1; 2; 3] None in
  fst (play self) = inr DRAW
  /\ exists last after,
       play_moves self = (inr last, after)
       /\ board_full after
       /\ forall player, ~ winning_line after player.
Proof.
  intros self. split; [reflexivity|].
  apply (play_draw_iff self); reflexivity.
Defined.

(** * Further properties *)

(** ** Reading the parameters *)



(** X2: a first line that has not exactly three words, and so an empty
    stream, makes [__init__] raise the parsing failure, whatever the
    other lines hold. *)
Theorem init_first_line_three_words (text_io : list string)
    (Hwords : length (split (hd EmptyString text_io)) <> 3%nat) :
  ConnectZ_init text_io = inl ParsingProblem.
Proof.
  unfold ConnectZ_init.
  rewrite <- (length_map py_int) in Hwords.
  destruct (map py_int (split (hd EmptyString text_io)))
    as [|[x|] [|[y|] [|[z|] [|? ?]]]]; try reflexivity.
  contradiction Hwords. reflexivity.
Qed.

Lemma init_first_line_three_words_witness :
  ConnectZ_init [] = inl ParsingProblem
  /\ ConnectZ_init (readlines ("2 2" ++ newline ++ "1")%string)
     = inl ParsingProblem.
Proof.
  split.
  - apply (init_first_line_three_words []). simpl. lia.
  - apply (init_first_line_three_words (readlines ("2 2" ++ newline ++ "1")%string)).
    simpl. lia.
Defined.

(** ** Dropping a disc, continued *)

Lemma put_disc_out_of_range (self : ConnectZ) (player : Player) (column : Z) :
  column < 1 \/ _x self < column ->
  put_disc player column self = (inl (InvalidColumnException column), self).
Proof.
  intros Hcolumn. unfold put_disc.
  destruct (Z.ltb_spec 0 column); destruct (Z.leb_spec column (_x self));
    try reflexivity. lia.
Qed.

(** X3: a column number below 1 or above [_x] raises the invalid-column
    failure before the grid is looked at: so whatever the grid is, and
    also when every column is full. *)
Theorem put_disc_invalid_column (self : ConnectZ) (player : Player) (column : Z)
    (Hcolumn : column < 1 \/ _x self < column) :
  put_disc player column self = (inl (InvalidColumnException column), self).
Proof. exact (put_disc_out_of_range self player column Hcolumn). Qed.

Lemma put_disc_invalid_column_witness :
  let self := mkConnectZ 2 1 2 [3] (Some [[FIRST]; [SECOND]]) in
  put_disc FIRST 3 self = (inl (InvalidColumnException 3), self)
  /\ put_disc FIRST 0 (mkConnectZ 2 1 2 [0] None)
     = (inl (InvalidColumnException 0), mkConnectZ 2 1 2 [0] None).
Proof.
  intros self. split.
  - apply (put_disc_invalid_column self FIRST 3). right. simpl. lia.
  - apply (put_disc_invalid_column (mkConnectZ 2 1 2 [0] None) FIRST 0). left. lia.
Defined.

Lemma put_disc_raise (self self' : ConnectZ) (player : Player) (column : Z)
    (e : Exc) :
  put_disc player column self = (inl e, self') -> self' = self.
Proof.
  unfold put_disc, set_grid.
  repeat match goal with
         | |- context [if ?b then _ else _] => destruct b
         | |- context [match ?t with _ => _ end] => destruct t
         end; intros [= <- <-] || intros [=]; reflexivity.
Qed.

(** What [put_disc] does on a grid with one list per column. *)
Lemma put_disc_cases (self : ConnectZ) (player : Player) (column : Z) :
  well_formed self ->
  (put_disc player column self = (inl (InvalidColumnException column), self)
   /\ (column < 1 \/ _x self < column))
  \/ (exists g column_list,
        _grid self = Some g /\ 1 <= column <= _x self
        /\ g !! Z.to_nat (column - 1) = Some column_list
        /\ ((put_disc player column self
             = (inl (ColumnToHighException column), self)
             /\ _y self <= Z.of_nat (length column_list))
            \/ (put_disc player column self
                = (inr tt, mkConnectZ (_x self) (_y self) (_z self) (_moves self)
                             (Some (<[Z.to_nat (column - 1)
                                      := column_list ++ [player]]> g)))
                /\ Z.of_nat (length column_list) < _y self))).
Proof.
  intros (g & Hg & Hlen).
  destruct (Z.lt_ge_cases column 1) as [Hlow|Hlow];
    [left; split; [apply put_disc_out_of_range|]; auto|].
  destruct (Z.lt_ge_cases (_x self) column) as [Hhigh|Hhigh];
    [left; split; [apply put_disc_out_of_range|]; auto|].
  right. destruct (lookup_lt_is_Some_2 g (Z.to_nat (column - 1)))
    as [column_list Hlist]; [lia|].
  exists g, column_list. repeat split; try assumption.
  destruct (Z.lt_ge_cases (Z.of_nat (length column_list)) (_y self)) as [Hroom|Hfull].
  - right. split; [|exact Hroom]. unfold put_disc, the_grid.
    destruct (Z.ltb_spec 0 column) as [_|?]; [|lia].
    destruct (Z.leb_spec column (_x self)) as [_|?]; [|lia].
    cbn [negb andb]. rewrite Hg.
    rewrite (py_getitem_lookup g (column - 1) column_list) by (assumption || lia).
    destruct (Z.geb_spec (Z.of_nat (length column_list)) (_y self)) as [?|_]; [lia|].
    rewrite py_index_nonneg by (pose proof (lookup_lt_Some _ _ _ Hlist); lia).
    reflexivity.
  - left. split; [|exact Hfull].
    apply (put_disc_column_full self player column g column_list);
      assumption || lia.
Qed.

(** ** Invariants of the loop of [play] *)

Lemma play_move_cases (self : ConnectZ) (column : Z) (player : Player) :
  well_formed self -> 0 <= _z self ->
  play_move column player self = (inl ToManyMovesException, self)
  \/ play_move column player self = put_disc player column self.
Proof.
  intros (g & Hg & Hlen) Hz. rewrite play_move_unfold.
  destruct (check_for_result_cases self g (get_second_user player) Hg Hlen Hz)
    as [[_ ->]|[_ ->]]; [left; reflexivity|].
  destruct (columns_full self g); [left|right]; reflexivity.
Qed.

Lemma play_move_state (self self' : ConnectZ) (column : Z) (player : Player)
    (r : res unit) :
  play_move column player self = (r, self') ->
  self' = self \/ put_disc player column self = (inr tt, self').
Proof.
  rewrite play_move_unfold.
  destruct (_check_for_result self (get_second_user player)) as [e|result];
    [intros [= _ <-]; left; reflexivity|].
  destruct (truthy result); [intros [= _ <-]; left; reflexivity|].
  destruct r as [e|[]]; intros H; [left|right; exact H].
  apply put_disc_raise in H. exact H.
Qed.

Lemma heights_bounded_well_formed (self : ConnectZ) :
  heights_bounded self -> well_formed self.
Proof. intros (g & Hg & Hlen & _). exists g. auto. Qed.

Lemma put_disc_heights (self self' : ConnectZ) (player : Player) (column : Z) :
  heights_bounded self -> put_disc player column self = (inr tt, self') ->
  heights_bounded self' /\ same_parameters self self'.
Proof.
  intros Hb Hput. pose proof (heights_bounded_well_formed self Hb) as Hwf.
  destruct Hb as (g & Hg & Hlen & Hall).
  destruct (put_disc_cases self player column Hwf)
    as [[H _]|(g' & column_list & Hg' & _ & Hlist & [[H _]|[H Hroom]])];
    rewrite H in Hput; try discriminate.
  injection Hput as <-. rewrite Hg in Hg'. injection Hg' as <-.
  split; [|repeat split].
  eexists. split; [reflexivity|]. split; [rewrite length_insert; exact Hlen|].
  apply Forall_insert; [exact Hall|]. rewrite length_app. simpl. lia.
Qed.

Lemma play_loop_heights (pairs : list (Z * Player)) (player : option Player)
    (self after : ConnectZ) (r : res (option Player)) :
  heights_bounded self -> play_loop pairs player self = (r, after) ->
  heights_bounded after /\ same_parameters self after.
Proof.
  revert player self. induction pairs as [|[column p] pairs IH];
    intros player self Hb Hloop.
  - injection Hloop as _ <-. split; [exact Hb|repeat split].
  - cbn [play_loop] in Hloop. unfold bind in Hloop.
    destruct (play_move column p self) as [[e|[]] middle] eqn:Hmove.
    + injection Hloop as _ <-.
      apply play_move_state in Hmove as [->|Hput]; [split; [exact Hb|repeat split]|].
      apply (put_disc_heights _ _ _ _ Hb Hput).
    + apply play_move_state in Hmove as [->|Hput]; [apply (IH _ _ Hb Hloop)|].
      destruct (put_disc_heights _ _ _ _ Hb Hput) as [Hb' Hsame].
      destruct (IH _ _ Hb' Hloop) as [Hba Hsame'].
      split; [exact Hba|]. eapply same_parameters_trans; eassumption.
Qed.

Lemma play_state (self : ConnectZ) : snd (play self) = snd (play_moves self).
Proof.
  rewrite play_unfold. destruct (play_moves self) as [[e|[p|]] after];
    try reflexivity.
  destruct (_check_for_result after p) as [e|[r|]]; reflexivity.
Qed.

(** X4: whatever [play] returns or raises, it leaves a grid of [_x]
    columns none of which holds more than [_y] discs, and it leaves the
    parameters as they were. *)
Theorem play_keeps_heights_bounded (self : ConnectZ) (Hy : 0 <= _y self) :
  heights_bounded (snd (play self)) /\ same_parameters self (snd (play self)).
Proof.
  rewrite play_state, play_moves_unfold.
  set (start := mkConnectZ _ _ _ _ _).
  assert (heights_bounded start) as Hstart.
  { eexists. split; [reflexivity|]. split; [apply length_replicate|].
    apply Forall_replicate. simpl. exact Hy. }
  destruct (play_loop (zip_players (_moves self)) None start) as [r after] eqn:Hloop.
  apply (play_loop_heights _ _ _ _ _ Hstart Hloop).
Qed.

Lemma play_keeps_heights_bounded_witness :
  let self := mkConnectZ 2 2 2 [1; 1; 1; 2] None in
  heights_bounded (snd (play self)) /\ same_parameters self (snd (play self)).
Proof.
  intros self. apply (play_keeps_heights_bounded self). simpl. lia.
Defined.

(** ** Who raises what *)

Lemma play_loop_raises (pairs : list (Z * Player)) (player : option Player)
    (self after : ConnectZ) (e : Exc) :
  well_formed self -> 0 <= _z self ->
  play_loop pairs player self = (inl e, after) ->
  (exists column, In column (map fst pairs) /\ e = InvalidColumnException column)
  \/ (exists column, In column (map fst pairs) /\ e = ColumnToHighException column)
  \/ e = ToManyMovesException.
Proof.
  revert player self. induction pairs as [|[column p] pairs IH];
    intros player self Hwf Hz Hloop; [discriminate|].
  cbn [play_loop] in Hloop. unfold bind in Hloop.
  destruct (play_move column p self) as [[e'|[]] middle] eqn:Hmove.
  - injection Hloop as <- <-.
    destruct (play_move_cases self column p Hwf Hz) as [H|H];
      rewrite H in Hmove; [injection Hmove as <- _; auto|].
    destruct (put_disc_cases self p column Hwf)
      as [[H' _]|(g & column_list & _ & _ & _ & [[H' _]|[H' _]])];
      rewrite H' in Hmove; try discriminate; injection Hmove as <- _.
    + left. exists column. split; [left|]; reflexivity.
    + right. left. exists column. split; [left|]; reflexivity.
  - apply play_move_done in Hmove as [_ Hput].
    destruct (put_disc_well_formed _ _ _ _ Hput Hwf) as [Hwf' (_ & _ & Hsz)].
    destruct (IH _ _ Hwf' ltac:(lia) Hloop)
      as [(c & Hc & ->)|[(c & Hc & ->)| ->]]; [left|right; left|right; right].
    + exists c. split; [right; exact Hc|reflexivity].
    + exists c. split; [right; exact Hc|reflexivity].
    + reflexivity.
Qed.

Lemma play_loop_last_player (pairs : list (Z * Player)) (player : option Player)
    (self after : ConnectZ) (last : option Player) :
  play_loop pairs player self = (inr last, after) ->
  last = last_player pairs player.
Proof.
  revert player self. induction pairs as [|[column p] pairs IH];
    intros player self Hloop.
  - injection Hloop as <- _. reflexivity.
  - cbn [play_loop] in Hloop. unfold bind in Hloop.
    destruct (play_move column p self) as [[e|[]] middle]; [discriminate|].
    apply IH in Hloop. exact Hloop.
Qed.

Lemma last_player_players (moves : list Z) (k : nat) (player : option Player) :
  last_player (zip moves (map players (seq k (length moves)))) player
  = match moves with
    | [] => player
    | _ :: _ => Some (players (k + length moves - 1))
    end.
Proof.
  revert k player. induction moves as [|c moves IH]; intros k player;
    [reflexivity|].
  unfold last_player, zip in *. simpl. rewrite IH.
  destruct moves; simpl; f_equal; f_equal; lia.
Qed.

Lemma last_player_zip_players (moves : list Z) :
  last_player (zip_players moves) None
  = match moves with
    | [] => None
    | _ :: _ => Some (players (length moves - 1))
    end.
Proof. unfold zip_players. rewrite last_player_players. reflexivity. Qed.

Lemma play_raise_kinds (self : ConnectZ) (e : Exc) :
  0 <= _z self -> _moves self <> [] -> fst (play self) = inl e ->
  game_failure e.
Proof.
  intros Hz Hmoves Hraise.
  revert Hraise. rewrite play_unfold, play_moves_unfold.
  set (start := mkConnectZ _ _ _ _ _).
  assert (well_formed start) as Hstart.
  { eexists. split; [reflexivity|]. apply length_replicate. }
  destruct (play_loop (zip_players (_moves self)) None start)
    as [[e'|last] after] eqn:Hloop.
  - intros [= <-]. unfold game_failure.
    destruct (play_loop_raises _ _ _ _ _ Hstart Hz Hloop)
      as [(c & _ & ->)|[(c & _ & ->)| ->]]; eauto.
  - pose proof (play_loop_last_player _ _ _ _ _ Hloop) as Hlast.
    rewrite last_player_zip_players in Hlast.
    destruct (_moves self) as [|c moves] eqn:E; [contradiction|].
    subst last.
    destruct (play_loop_last _ _ _ _ _ Hstart Hloop)
      as ((g & Hg & Hlen) & (_ & _ & Hsz) & _). simpl in Hsz.
    destruct (check_for_result_cases after g (players (length (c :: moves) - 1))
                Hg Hlen ltac:(lia)) as [[_ ->]|[_ ->]]; [discriminate|].
    destruct (columns_full after g); [discriminate|].
    intros [= <-]. unfold game_failure. auto.
Qed.

(** X5: on a log that is not empty [play] raises nothing but the four
    failures of a game: an invalid column, a full column, a move after the
    end, or a missing result.  No error of the interpreter escapes. *)
Theorem play_raises_game_failures (self : ConnectZ) (e : Exc)
    (Hz : 0 <= _z self) (Hmoves : _moves self <> [])
    (Hraise : fst (play self) = inl e) :
  game_failure e.
Proof. exact (play_raise_kinds self e Hz Hmoves Hraise). Qed.

Lemma play_raises_game_failures_witness :
  game_failure (ColumnToHighException 1).
Proof.
  apply (play_raises_game_failures (mkConnectZ 2 2 2 [1; 1; 1] None)).
  - simpl. lia.
  - discriminate.
  - reflexivity.
Defined.

(** ** The result of a game *)

(** X6: [play] returns the win of a player exactly when its loop replays
    every move, that player made the last one and has a winning line on
    the board it leaves. *)
Theorem play_win_iff (self : ConnectZ) (player : Player) (Hz : 0 <= _z self) :
  fst (play self) = inr (GameResult_of_player player)
  <-> exists after,
        play_moves self = (inr (Some player), after)
        /\ winning_line after player.
Proof.
  rewrite play_unfold, play_moves_unfold.
  set (start := mkConnectZ _ _ _ _ _).
  assert (well_formed start) as Hstart.
  { eexists. split; [reflexivity|]. apply length_replicate. }
  destruct (play_loop (zip_players (_moves self)) None start)
    as [[e|[p|]] after] eqn:Hloop.
  - split; [discriminate|]. intros (? & [=] & _).
  - destruct (play_loop_last _ _ _ _ _ Hstart Hloop)
      as ((g & Hg & Hlen) & (_ & _ & Hsz) & _). simpl in Hsz.
    destruct (check_for_result_cases after g p Hg Hlen ltac:(lia))
      as [[Hwin ->]|[Hnot ->]].
    + split.
      * intros [= H]. exists after.
        assert (p = player) as <- by (destruct p, player; simpl in H; congruence).
        auto.
      * intros (? & [= <- <-] & _). reflexivity.
    + split.
      * destruct (columns_full after g), player; discriminate.
      * intros (? & [= <- <-] & Hwin). contradiction.
  - split; [discriminate|]. intros (? & [=] & _).
Qed.

Lemma play_win_iff_witness :
  let self := mkConnectZ 2 2 2 [1; 2; 1] None in
  fst (play self) = inr FIRST_WON
  /\ exists after,
       play_moves self = (inr (Some FIRST), after) /\ winning_line after FIRST.
Proof.
  intros self. split; [reflexivity|].
  apply (play_win_iff self FIRST); [simpl; lia|reflexivity].
Defined.

(** X7: the winner is the player of the last move: FIRST wins only logs
    with an odd number of moves, SECOND only logs with an even number of
    moves, two at least. *)
Theorem play_winner_parity (self : ConnectZ) (player : Player)
    (Hz : 0 <= _z self)
    (Hwin : fst (play self) = inr (GameResult_of_player player)) :
  _moves self <> []
  /\ player = players (length (_moves self) - 1)
  /\ Nat.even (length (_moves self)) = bool_decide (player = SECOND).
Proof.
  revert Hwin. rewrite play_unfold, play_moves_unfold.
  set (start := mkConnectZ _ _ _ _ _).
  assert (well_formed start) as Hstart.
  { eexists. split; [reflexivity|]. apply length_replicate. }
  destruct (play_loop (zip_players (_moves self)) None start)
    as [[e|[p|]] after] eqn:Hloop; try discriminate.
  pose proof (play_loop_last_player _ _ _ _ _ Hloop) as Hlast.
  rewrite last_player_zip_players in Hlast.
  destruct (_moves self) as [|c moves]; [discriminate|].
  injection Hlast as Hlast.
  destruct (play_loop_last _ _ _ _ _ Hstart Hloop)
    as ((g & Hg & Hlen) & (_ & _ & Hsz) & _). simpl in Hsz.
  destruct (check_for_result_cases after g p Hg Hlen ltac:(lia))
    as [[_ ->]|[_ ->]].
  - intros [= H].
    assert (p = player) as <- by (destruct p, player; simpl in H; congruence).
    split; [discriminate|]. split; [exact Hlast|].
    rewrite Hlast, Nat.sub_0_r. unfold players. simpl length.
    rewrite Nat.even_succ, <- Nat.negb_even.
    destruct (Nat.even (length moves)); reflexivity.
  - destruct (columns_full after g), player; discriminate.
Qed.

Lemma play_winner_parity_witness :
  let self := mkConnectZ 2 2 2 [1; 2; 1] None in
  _moves self <> []
  /\ FIRST = players (length (_moves self) - 1)
  /\ Nat.even (length (_moves self)) = bool_decide (FIRST = SECOND).
Proof.
  intros self. apply (play_winner_parity self FIRST); [simpl; lia|reflexivity].
Defined.

(** X8: [play] raises the missing-result failure exactly when its loop
    replays every move, of which there is one at least, and leaves a board
    that is not full and on which the player of the last move has no
    winning line. *)
Theorem play_lack_of_result_iff (self : ConnectZ) (Hz : 0 <= _z self) :
  fst (play self) = inl LackOfResultException
  <-> exists player after,
        play_moves self = (inr (Some player), after)
        /\ ~ winning_line after player
        /\ ~ board_full after.
Proof.
  rewrite play_unfold, play_moves_unfold.
  set (start := mkConnectZ _ _ _ _ _).
  assert (well_formed start) as Hstart.
  { eexists. split; [reflexivity|]. apply length_replicate. }
  destruct (play_loop (zip_players (_moves self)) None start)
    as [[e|[p|]] after] eqn:Hloop.
  - split; [|intros (? & ? & [=] & _)]. intros [= ->].
    destruct (play_loop_raises _ _ _ _ _ Hstart Hz Hloop)
      as [(c & _ & [=])|[(c & _ & [=])|[=]]].
  - destruct (play_loop_last _ _ _ _ _ Hstart Hloop)
      as ((g & Hg & Hlen) & (_ & _ & Hsz) & _). simpl in Hsz.
    pose proof (board_full_columns_full after g Hg) as Hfull.
    destruct (check_for_result_cases after g p Hg Hlen ltac:(lia))
      as [[Hwin ->]|[Hnot ->]].
    + split; [discriminate|]. intros (? & ? & [= <- <-] & Hnot & _). contradiction.
    + destruct (columns_full after g) eqn:Hcols.
      * split; [discriminate|]. intros (? & ? & [= <- <-] & _ & Hnf).
        contradiction Hnf. apply Hfull. reflexivity.
      * split; [intros _|reflexivity]. exists p, after.
        split; [reflexivity|]. split; [exact Hnot|].
        intros Hf. apply Hfull in Hf. discriminate.
  - split; [discriminate|]. intros (? & ? & [=] & _).
Qed.

Lemma play_lack_of_result_iff_witness :
  let self := mkConnectZ 2 2 2 [1; 2] None in
  fst (play self) = inl LackOfResultException
  /\ exists player after,
       play_moves self = (inr (Some player), after)
       /\ ~ winning_line after player
       /\ ~ board_full after.
Proof.
  intros self. split; [reflexivity|].
  apply (play_lack_of_result_iff self); [simpl; lia|reflexivity].
Defined.

(** ** Counting discs *)

Lemma concat_after_disc (g : list (list Player)) (n : nat)
    (column_list : list Player) (p : Player) :
  g !! n = Some column_list ->
  concat (<[n := column_list ++ [p]]> g) ≡ₚ p :: concat g.
Proof.
  intros Hn. pose proof (lookup_lt_Some _ _ _ Hn) as Hlt.
  rewrite insert_take_drop by exact Hlt.
  rewrite <- (take_drop_middle g n column_list Hn) at 3.
  rewrite !concat_app, !concat_cons, <- !app_assoc. simpl.
  do 2 rewrite <- Permutation_middle. reflexivity.
Qed.

Lemma discs_after_disc (g : list (list Player)) (n : nat)
    (column_list : list Player) (p q : Player) :
  g !! n = Some column_list ->
  discs (<[n := column_list ++ [p]]> g) = S (discs g)
  /\ discs_of q (<[n := column_list ++ [p]]> g)
     = (discs_of q g + if bool_decide (p = q) then 1 else 0)%nat.
Proof.
  intros Hn. pose proof (concat_after_disc g n column_list p Hn) as Hperm.
  unfold discs, discs_of. rewrite Hperm. split; [reflexivity|].
  rewrite filter_cons. destruct (decide (p = q)) as [->|Hne].
  - rewrite bool_decide_eq_true_2 by reflexivity. simpl. lia.
  - rewrite bool_decide_eq_false_2 by exact Hne. lia.
Qed.

Lemma play_loop_discs (pairs : list (Z * Player)) (player : option Player)
    (self after : ConnectZ) (last : option Player) (g : list (list Player)) :
  _grid self = Some g ->
  play_loop pairs player self = (inr last, after) ->
  exists g',
    _grid after = Some g'
    /\ discs g' = (discs g + length pairs)%nat
    /\ forall q,
        discs_of q g'
        = (discs_of q g + length (filter (fun pair => pair.2 = q) pairs))%nat.
Proof.
  revert player self g. induction pairs as [|[column p] pairs IH];
    intros player self g Hg Hloop.
  - injection Hloop as _ <-. exists g. split; [exact Hg|].
    split; [|intros q]; simpl; lia.
  - cbn [play_loop] in Hloop. unfold bind in Hloop.
    destruct (play_move column p self) as [[e|[]] middle] eqn:Hmove;
      [discriminate|].
    apply play_move_done in Hmove as [_ Hput].
    apply put_disc_done in Hput as (g0 & n & column_list & Hg0 & Hn & ->).
    rewrite Hg in Hg0. injection Hg0 as <-.
    eapply IH in Hloop as (g' & Hg' & Hdiscs & Hof); [|reflexivity].
    exists g'. split; [exact Hg'|].
    split.
    + rewrite Hdiscs. rewrite (proj1 (discs_after_disc g n column_list p p Hn)).
      simpl. lia.
    + intros q. rewrite Hof.
      rewrite (proj2 (discs_after_disc g n column_list p q Hn)).
      rewrite filter_cons. simpl.
      destruct (decide (p = q)) as [->|Hne].
      * rewrite bool_decide_eq_true_2 by reflexivity. simpl. lia.
      * rewrite bool_decide_eq_false_2 by exact Hne. lia.
Qed.

Lemma length_zip_players (moves : list Z) :
  length (zip_players moves) = length moves.
Proof.
  unfold zip_players, zip. rewrite length_combine, length_map, length_seq. lia.
Qed.

Lemma filter_zip_snd {A B : Type} (P : B -> Prop) `{forall b, Decision (P b)}
    (l : list A) (k : list B) :
  length l = length k ->
  length (filter (fun pair : A * B => P pair.2) (zip l k))
  = length (filter P k).
Proof.
  unfold zip. revert k. induction l as [|a l IH]; intros [|b k] Hlen;
    try discriminate; [reflexivity|].
  simpl. rewrite !filter_cons. simpl.
  injection Hlen as Hlen.
  destruct (decide (P b)); simpl; rewrite IH by exact Hlen; reflexivity.
Qed.

Lemma div2_succ (n : nat) :
  Nat.div2 (S n) = (Nat.div2 n + if Nat.even n then 0 else 1)%nat.
Proof.
  pose proof (Nat.div2_odd n) as H. pose proof (Nat.div2_odd (S n)) as H'.
  rewrite Nat.odd_succ in H'. rewrite <- Nat.negb_even in H.
  destruct (Nat.even n); cbn [Nat.b2n negb] in H, H'; lia.
Qed.

Lemma count_players (n : nat) :
  length (filter (fun p => p = FIRST) (map players (seq 0 n))) = ((n + 1) / 2)%nat
  /\ length (filter (fun p => p = SECOND) (map players (seq 0 n))) = (n / 2)%nat.
Proof.
  rewrite <- !Nat.div2_div, Nat.add_1_r.
  induction n as [|n [IH1 IH2]]; [split; reflexivity|].
  rewrite seq_S, map_app, !filter_app, !length_app, IH1, IH2.
  change (Nat.div2 (S (S n))) with (S (Nat.div2 n)).
  rewrite (div2_succ n). simpl. rewrite !filter_cons, !filter_nil.
  unfold players. destruct (Nat.even n).
  - destruct (decide (FIRST = FIRST)); [|congruence].
    destruct (decide (FIRST = SECOND)); [congruence|]. simpl. lia.
  - destruct (decide (SECOND = FIRST)); [congruence|].
    destruct (decide (SECOND = SECOND)); [|congruence]. simpl. lia.
Qed.

Lemma discs_empty (n : nat) (q : Player) :
  discs_of q (replicate n []) = 0%nat /\ discs (replicate n []) = 0%nat.
Proof.
  unfold discs_of, discs. induction n as [|n IH]; [split; reflexivity|exact IH].
Qed.

(** X9: when the loop of [play] replays the whole log, the board holds as
    many discs as the log has moves; FIRST placed half of them, rounded
    up, and SECOND half of them, rounded down. *)
Theorem play_moves_counts_discs (self after : ConnectZ) (last : option Player)
    (Hloop : play_moves self = (inr last, after)) :
  exists g,
    _grid after = Some g
    /\ discs g = length (_moves self)
    /\ discs_of FIRST g = ((length (_moves self) + 1) / 2)%nat
    /\ discs_of SECOND g = (length (_moves self) / 2)%nat.
Proof.
  rewrite play_moves_unfold in Hloop.
  eapply play_loop_discs in Hloop as (g & Hg & Hdiscs & Hof); [|reflexivity].
  pose proof (fun q => discs_empty (Z.to_nat (_x self)) q) as Hzero.
  exists g. split; [exact Hg|].
  rewrite Hdiscs, !Hof, (proj2 (Hzero FIRST)), !(proj1 (Hzero _)),
    length_zip_players.
  unfold zip_players.
  assert (length (_moves self)
          = length (map players (seq 0 (length (_moves self))))) as Hlen
    by (rewrite length_map, length_seq; reflexivity).
  destruct (count_players (length (_moves self))) as [<- <-].
  rewrite !Nat.add_0_l. split; [reflexivity|].
  split.
  - exact (@filter_zip_snd Z Player (fun p => p = FIRST)
             (fun p => decide (p = FIRST)) _ _ Hlen).
  - exact (@filter_zip_snd Z Player (fun p => p = SECOND)
             (fun p => decide (p = SECOND)) _ _ Hlen).
Qed.

Lemma play_moves_counts_discs_witness :
  exists g,
    _grid (snd (play_moves (mkConnectZ 3 1 3 [1; 2; 3] None))) = Some g
    /\ discs g = 3%nat /\ discs_of FIRST g = 2%nat /\ discs_of SECOND g = 1%nat.
Proof.
  apply (play_moves_counts_discs (mkConnectZ 3 1 3 [1; 2; 3] None) _ (Some FIRST)).
  reflexivity.
Defined.

Lemma discs_bounded (g : list (list Player)) (y : Z) :
  (Forall (fun column => Z.of_nat (length column) <= y) g ->
   Z.of_nat (discs g) <= Z.of_nat (length g) * y)
  /\ (Forall (fun column => Z.of_nat (length column) = y) g ->
      Z.of_nat (discs g) = Z.of_nat (length g) * y).
Proof.
  unfold discs. induction g as [|column g [IH1 IH2]]; [split; reflexivity|].
  simpl. rewrite length_app.
  replace (Z.of_nat (S (length g)) * y) with (y + Z.of_nat (length g) * y) by lia.
  split; intros H; apply Forall_cons in H as [Hc Hg];
    [specialize (IH1 Hg)|specialize (IH2 Hg)]; lia.
Qed.

(** X10: a log on which [play] returns a result has at least one move and
    no more moves than the board has cells; a drawn log has exactly as
    many moves as the board has cells. *)
Theorem play_result_bounds_moves (self : ConnectZ) (r : GameResult)
    (Hvalid : invalid_parameters (_x self) (_y self) (_z self) = false)
    (Hresult : fst (play self) = inr r) :
  1 <= Z.of_nat (length (_moves self)) <= _x self * _y self
  /\ (r = DRAW -> Z.of_nat (length (_moves self)) = _x self * _y self).
Proof.
  apply valid_parameters_positive in Hvalid as (Hx & Hy & Hz).
  revert Hresult. rewrite play_unfold, play_moves_unfold.
  set (start := mkConnectZ _ _ _ _ _).
  assert (heights_bounded start) as Hstart.
  { eexists. split; [reflexivity|]. split; [apply length_replicate|].
    apply Forall_replicate. simpl. lia. }
  destruct (play_loop (zip_players (_moves self)) None start)
    as [[e|[p|]] after] eqn:Hloop; try discriminate.
  destruct (play_loop_heights _ _ _ _ _ Hstart Hloop)
    as ((g & Hg & Hlen & Hall) & (Hsx & Hsy & Hsz)).
  simpl in Hsx, Hsy, Hsz.
  pose proof (play_loop_last_player _ _ _ _ _ Hloop) as Hlast.
  rewrite last_player_zip_players in Hlast.
  pose proof Hloop as Hdiscs.
  eapply play_loop_discs in Hdiscs as (g' & Hg' & Hdiscs & _); [|reflexivity].
  rewrite Hg in Hg'. injection Hg' as <-.
  rewrite (proj2 (discs_empty _ FIRST)), length_zip_players in Hdiscs.
  simpl in Hdiscs. rewrite <- Hdiscs.
  destruct (discs_bounded g (_y after)) as [Hle Heq].
  specialize (Hle Hall). intros Hresult. split.
  - split; [|rewrite <- Hsx, <- Hsy; lia].
    rewrite Hdiscs. destruct (_moves self); [discriminate|simpl; lia].
  - intros ->.
    destruct (check_for_result_cases after g p Hg Hlen ltac:(lia))
      as [[_ H]|[_ H]]; rewrite H in Hresult; [destruct p; discriminate|].
    destruct (columns_full after g) eqn:Hcols; [|discriminate].
    assert (board_full after) as (g' & Hg' & Hfull)
      by (apply (board_full_columns_full after g Hg), Hcols).
    rewrite Hg in Hg'. injection Hg' as <-.
    rewrite (Heq Hfull), <- Hsx, <- Hsy. lia.
Qed.

Lemma play_result_bounds_moves_witness :
  let self := mkConnectZ 3 1 3 [1; 2; 3] None in
  1 <= Z.of_nat (length (_moves self)) <= _x self * _y self
  /\ (DRAW = DRAW -> Z.of_nat (length (_moves self)) = _x self * _y self).
Proof.
  intros self. apply (play_result_bounds_moves self DRAW); reflexivity.
Defined.

(** ** Lines of the board *)

(** X11: every diagonal that [_diagonals] yields has at least [_z] cells,
    and all its cells are on the board. *)
Theorem diagonals_long_enough (self : ConnectZ) (diagonal : list (Z * Z))
    (Hin : In diagonal (_diagonals self)) :
  _z self <= Z.of_nat (length diagonal)
  /\ Forall (on_board self) diagonal.
Proof.
  split.
  - unfold _diagonals in Hin.
    apply in_flat_map in Hin as (x & Hx & Hin).
    apply in_flat_map in Hin as (y & Hy & Hin).
    apply in_range in Hx. apply in_range in Hy.
    destruct Hin as [<-|[<-|[]]]; unfold zip, range, range_down;
      rewrite length_combine, ?length_map, !length_seqZ; lia.
  - apply Forall_forall. intros [a b] Hc. apply list_elem_of_In in Hc.
    destruct (diagonals_in_range self diagonal (a, b) Hin Hc) as [Ha Hb].
    split; [exact Ha|]. split; [exact Hb|]. simpl.
    unfold _diagonals in Hin.
    apply in_flat_map in Hin as (x & Hx & Hin).
    apply in_flat_map in Hin as (y & Hy & Hin).
    destruct Hin as [<-|[<-|[]]]; apply in_zip in Hc as [_ Hc];
      apply in_range in Hc; lia.
Qed.

Lemma diagonals_long_enough_witness :
  2 <= Z.of_nat (length [(1, 0); (0, 1)])
  /\ Forall (on_board (mkConnectZ 3 2 2 [] None)) [(1, 0); (0, 1)].
Proof.
  apply (diagonals_long_enough (mkConnectZ 3 2 2 [] None) [(1, 0); (0, 1)]).
  vm_compute. auto 10.
Defined.

Lemma win_found (self : ConnectZ) (g : list (list Player)) (player : Player)
    (line : list (option Player)) :
  _grid self = Some g -> length g = Z.to_nat (_x self) -> 0 <= _z self ->
  In line (lines_of self g) -> has_run (_z self) player line ->
  winning_line self player
  /\ _check_for_result self player = inr (Some (GameResult_of_player player)).
Proof.
  intros Hg Hlen Hz Hin Hrun.
  assert (winning_line self player) as Hwin
    by (apply (winning_line_lines_of self g player Hg Hlen); eauto).
  split; [exact Hwin|].
  destruct (check_for_result_cases self g player Hg Hlen Hz) as [[_ H]|[H _]];
    [exact H|contradiction].
Qed.

(** X12: [_z] discs of one player side by side in a row of the board are
    found by the win detector. *)
Theorem row_run_wins (self : ConnectZ) (player : Player) (x y : Z)
    (Hz : 1 <= _z self) (Hwf : well_formed self)
    (Hx : 0 <= x /\ x + _z self <= _x self) (Hy : 0 <= y < _y self)
    (Hcells : forall k, 0 <= k < _z self ->
                _get_or_none self (x + k) y = inr (Some player)) :
  winning_line self player
  /\ _check_for_result self player = inr (Some (GameResult_of_player player)).
Proof.
  destruct Hwf as (g & Hg & Hlen).
  apply (win_found self g player
           (map (fun x => cell g x y) (range 0 (_x self))) Hg Hlen ltac:(lia)).
  - unfold lines_of. apply in_or_app. right. apply in_or_app. left.
    apply in_map_iff. exists y. split; [reflexivity|]. apply in_range. lia.
  - rewrite (range_split 0 (_x self) x) by lia.
    rewrite (range_split (0 + x) (_x self) (_z self)) by lia.
    rewrite !map_app.
    eexists _, _. f_equal. f_equal. symmetry.
    apply replicate_as_Forall. rewrite !length_map, length_seqZ.
    split; [reflexivity|]. apply Forall_forall. intros v Hv.
    apply list_elem_of_In, in_map_iff in Hv as (a & <- & Ha).
    apply in_map_iff in Ha as (k & <- & Hk).
    apply list_elem_of_In, elem_of_seqZ in Hk.
    specialize (Hcells k ltac:(lia)).
    rewrite (get_or_none_cell self g (x + k) y) in Hcells by (assumption || lia).
    replace (0 + x + k) with (x + k) by lia. congruence.
Qed.

Lemma row_run_wins_witness :
  let self := mkConnectZ 3 2 2 [] (Some [[SECOND]; [FIRST]; [FIRST; SECOND]]) in
  winning_line self FIRST
  /\ _check_for_result self FIRST = inr (Some FIRST_WON).
Proof.
  intros self. apply (row_run_wins self FIRST 1 0).
  - simpl. lia.
  - eexists. split; reflexivity.
  - simpl. lia.
  - simpl. lia.
  - simpl. intros k Hk.
    assert (k = 0 \/ k = 1) as [-> | ->] by lia; reflexivity.
Defined.

(** X13: [_z] discs of one player on top of each other in a column are
    found by the win detector. *)
Theorem column_run_wins (self : ConnectZ) (player : Player) (x y : Z)
    (Hz : 1 <= _z self) (Hwf : well_formed self)
    (Hx : 0 <= x < _x self) (Hy : 0 <= y)
    (Hcells : forall k, 0 <= k < _z self ->
                _get_or_none self x (y + k) = inr (Some player)) :
  winning_line self player
  /\ _check_for_result self player = inr (Some (GameResult_of_player player)).
Proof.
  destruct Hwf as (g & Hg & Hlen).
  destruct (lookup_lt_is_Some_2 g (Z.to_nat x)) as [column Hcolumn]; [lia|].
  assert (forall k, 0 <= k < _z self ->
                    column !! Z.to_nat (y + k) = Some player) as Hcol.
  { intros k Hk. specialize (Hcells k Hk).
    rewrite (get_or_none_cell self g x (y + k)) in Hcells by (assumption || lia).
    unfold cell in Hcells. rewrite Hcolumn in Hcells. congruence. }
  apply (win_found self g player (map Some column) Hg Hlen ltac:(lia)).
  - unfold lines_of. apply in_or_app. left. apply in_map.
    apply list_elem_of_In, list_elem_of_lookup. eauto.
  - exists (map Some (take (Z.to_nat y) column)),
      (map Some (drop (Z.to_nat (_z self)) (drop (Z.to_nat y) column))).
    rewrite <- (take_drop (Z.to_nat y) column) at 1.
    rewrite <- (take_drop (Z.to_nat (_z self)) (drop (Z.to_nat y) column)) at 1.
    rewrite !map_app. do 2 f_equal. symmetry.
    pose proof (lookup_lt_Some _ _ _ (Hcol (_z self - 1) ltac:(lia))) as Hlong.
    apply replicate_as_Forall. split.
    + rewrite length_map, length_take, length_drop. lia.
    + apply Forall_forall. intros v Hv.
      apply list_elem_of_In, in_map_iff in Hv as (p & <- & Hp).
      apply list_elem_of_In, list_elem_of_lookup in Hp as (i & Hp).
      apply lookup_take_Some in Hp as [Hp Hi]. rewrite lookup_drop in Hp.
      specialize (Hcol (Z.of_nat i) ltac:(lia)).
      replace (Z.to_nat (y + Z.of_nat i)) with (Z.to_nat y + i)%nat in Hcol by lia.
      congruence.
Qed.

Lemma column_run_wins_witness :
  let self := mkConnectZ 2 3 2 [] (Some [[SECOND; FIRST; FIRST]; [SECOND]]) in
  winning_line self FIRST
  /\ _check_for_result self FIRST = inr (Some FIRST_WON).
Proof.
  intros self. apply (column_run_wins self FIRST 0 1).
  - simpl. lia.
  - eexists. split; reflexivity.
  - simpl. lia.
  - lia.
  - simpl. intros k Hk.
    assert (k = 0 \/ k = 1) as [-> | ->] by lia; reflexivity.
Defined.

Lemma run_lookup {A : Type} (line pre post : list A) (n i : nat) (v : A) :
  line = pre ++ replicate n v ++ post -> (i < n)%nat ->
  line !! (length pre + i)%nat = Some v.
Proof.
  intros -> Hi. rewrite lookup_app_r by lia.
  replace (length pre + i - length pre)%nat with i by lia.
  rewrite lookup_app_l by (rewrite length_replicate; exact Hi).
  apply lookup_replicate_2, Hi.
Qed.

Lemma lookup_zip {A B : Type} (l : list A) (k : list B) (i : nat) (a : A) (b : B) :
  zip l k !! i = Some (a, b) -> l !! i = Some a /\ k !! i = Some b.
Proof.
  unfold zip. revert k i. induction l as [|a' l IH]; intros [|b' k] [|i];
    try discriminate; simpl.
  - intros [= -> ->]. auto.
  - apply IH.
Qed.

Lemma lookup_range (start stop a : Z) (i : nat) :
  range start stop !! i = Some a -> a = start + Z.of_nat i.
Proof. unfold range. intros H. apply lookup_seqZ in H as [-> _]. reflexivity. Qed.

Lemma lookup_range_down (start stop a : Z) (i : nat) :
  range_down start stop !! i = Some a -> a = start - Z.of_nat i.
Proof.
  unfold range_down.
  change (map (fun k => start - k) (seqZ 0 (start - stop)))
    with ((fun k => start - k) <$> seqZ 0 (start - stop)).
  rewrite list_lookup_fmap. intros H.
  apply fmap_Some in H as (k & Hk & ->). apply lookup_seqZ in Hk as [-> _]. lia.
Qed.

(** A run in the line of the cells [coords], which advance by [(dx, dy)],
    is a run of cells of the board in that direction. *)
Lemma straight_run (self : ConnectZ) (g : list (list Player)) (player : Player)
    (coords : list (Z * Z)) (x0 y0 dx dy : Z) :
  _grid self = Some g -> length g = Z.to_nat (_x self) ->
  (forall i c, coords !! i = Some c ->
     c = (x0 + Z.of_nat i * dx, y0 + Z.of_nat i * dy)
     /\ 0 <= c.1 < _x self /\ 0 <= c.2) ->
  has_run (_z self) player (map (fun c : Z * Z => cell g c.1 c.2) coords) ->
  exists x y,
    forall k, 0 <= k < _z self ->
      0 <= x + k * dx < _x self /\ 0 <= y + k * dy
      /\ _get_or_none self (x + k * dx) (y + k * dy) = inr (Some player).
Proof.
  intros Hg Hlen Hcoords (pre & post & Hrun).
  exists (x0 + Z.of_nat (length pre) * dx), (y0 + Z.of_nat (length pre) * dy).
  intros k Hk.
  pose proof (run_lookup _ _ _ _ (Z.to_nat k) _ Hrun ltac:(lia)) as Hcell.
  change (map (fun c : Z * Z => cell g c.1 c.2) coords)
    with ((fun c : Z * Z => cell g c.1 c.2) <$> coords) in Hcell.
  rewrite list_lookup_fmap in Hcell.
  apply fmap_Some in Hcell as (c & Hc & Hp).
  destruct (Hcoords _ _ Hc) as (-> & Hcx & Hcy). simpl in *.
  replace (x0 + Z.of_nat (length pre) * dx + k * dx)
    with (x0 + Z.of_nat (length pre + Z.to_nat k) * dx)
    by (rewrite Nat2Z.inj_add, Z2Nat.id by lia; ring).
  replace (y0 + Z.of_nat (length pre) * dy + k * dy)
    with (y0 + Z.of_nat (length pre + Z.to_nat k) * dy)
    by (rewrite Nat2Z.inj_add, Z2Nat.id by lia; ring).
  split; [exact Hcx|]. split; [exact Hcy|].
  rewrite (get_or_none_cell self g) by (assumption || lia).
  congruence.
Qed.

(** X14: a win is a straight line on the board.  When the win detector
    finds a winning line of a player, [_z] cells of the board in a row
    upwards, to the right, or along a diagonal hold discs of that
    player. *)
Theorem winning_line_is_straight (self : ConnectZ) (player : Player)
    (Hz : 1 <= _z self) (Hwf : well_formed self)
    (Hwin : winning_line self player) :
  exists x y d,
    direction d
    /\ forall k, 0 <= k < _z self ->
         0 <= x + k * d.1 < _x self /\ 0 <= y + k * d.2
         /\ _get_or_none self (x + k * d.1) (y + k * d.2) = inr (Some player).
Proof.
  destruct Hwf as (g & Hg & Hlen).
  apply (winning_line_lines_of self g player Hg Hlen) in Hwin
    as (line & Hin & Hrun).
  unfold lines_of in Hin.
  apply in_app_or in Hin as [Hin|Hin]; [|apply in_app_or in Hin as [Hin|Hin]].
  - apply in_map_iff in Hin as (column & <- & Hin).
    apply list_elem_of_In, list_elem_of_lookup in Hin as (i & Hi).
    pose proof (lookup_lt_Some _ _ _ Hi) as Hlt.
    destruct Hrun as (pre & post & Hrun).
    exists (Z.of_nat i), (Z.of_nat (length pre)), (0, 1).
    split; [left; reflexivity|]. intros k Hk. simpl.
    pose proof (run_lookup _ _ _ _ (Z.to_nat k) _ Hrun ltac:(lia)) as Hcell.
    change (map Some column) with (Some <$> column) in Hcell.
    rewrite list_lookup_fmap in Hcell.
    apply fmap_Some in Hcell as (p & Hp & [= <-]).
    split; [lia|]. split; [lia|].
    rewrite (get_or_none_cell self g) by (assumption || lia).
    unfold cell. replace (Z.to_nat (Z.of_nat i + k * 0)) with i by lia.
    rewrite Hi. f_equal. rewrite <- Hp. f_equal. lia.
  - apply in_map_iff in Hin as (y & <- & Hy). apply in_range in Hy.
    rewrite <- (map_map (fun x => (x, y)) (fun c : Z * Z => cell g c.1 c.2)) in Hrun.
    destruct (straight_run self g player
                (map (fun x => (x, y)) (range 0 (_x self))) 0 y 1 0 Hg Hlen)
      as (x & y' & H); [|exact Hrun|].
    { intros i c Hc.
      change (map (fun x => (x, y)) (range 0 (_x self)))
        with ((fun x => (x, y)) <$> range 0 (_x self)) in Hc.
      rewrite list_lookup_fmap in Hc. apply fmap_Some in Hc as (a & Ha & ->).
      pose proof (lookup_range _ _ _ _ Ha) as ->.
      apply list_elem_of_lookup_2, list_elem_of_In, in_range in Ha. simpl.
      split; [f_equal; lia|lia]. }
    exists x, y', (1, 0). split; [right; left; reflexivity|exact H].
  - apply in_map_iff in Hin as (diagonal & <- & Hin).
    pose proof (diagonals_in_range self diagonal) as Hbounds.
    specialize (Hbounds) with (1 := Hin).
    unfold _diagonals in Hin.
    apply in_flat_map in Hin as (x0 & _ & Hin).
    apply in_flat_map in Hin as (y0 & _ & Hin).
    destruct Hin as [<-|[<-|[]]].
    + destruct (straight_run self g player
                  (zip (range x0 (_x self)) (range y0 (_y self))) x0 y0 1 1 Hg Hlen)
        as (x & y & H); [|exact Hrun|].
      { intros i [a b] Hc. split.
        - apply lookup_zip in Hc as [Ha Hb].
          apply lookup_range in Ha, Hb. subst. f_equal; lia.
        - apply Hbounds, list_elem_of_In, list_elem_of_lookup_2 with i, Hc. }
      exists x, y, (1, 1). split; [right; right; left; reflexivity|exact H].
    + destruct (straight_run self g player
                  (zip (range_down (_x self - 1 - x0) (-1)) (range y0 (_y self)))
                  (_x self - 1 - x0) y0 (-1) 1 Hg Hlen)
        as (x & y & H); [|exact Hrun|].
      { intros i [a b] Hc. split.
        - apply lookup_zip in Hc as [Ha Hb].
          apply lookup_range_down in Ha. apply lookup_range in Hb.
          subst. f_equal; lia.
        - apply Hbounds, list_elem_of_In, list_elem_of_lookup_2 with i, Hc. }
      exists x, y, (-1, 1). split; [right; right; right; reflexivity|exact H].
Qed.

Lemma winning_line_is_straight_witness :
  let self := mkConnectZ 2 2 2 [1; 2; 1] (Some [[FIRST; FIRST]; [SECOND]]) in
  exists x y d,
    direction d
    /\ forall k, 0 <= k < 2 ->
         0 <= x + k * d.1 < 2 /\ 0 <= y + k * d.2
         /\ _get_or_none self (x + k * d.1) (y + k * d.2) = inr (Some FIRST).
Proof.
  intros self. apply (winning_line_is_straight self FIRST).
  - simpl. lia.
  - eexists. split; reflexivity.
  - exists [Some FIRST; Some FIRST]. split.
    + left. reflexivity.
    + exists [], []. reflexivity.
Defined.

(** ** The order of the moves *)

Lemma players_succ (i : nat) : players (S i) = get_second_user (players i).
Proof.
  unfold players. rewrite Nat.even_succ, <- Nat.negb_even.
  destruct (Nat.even i); reflexivity.
Qed.

Lemma lookup_zip_from (moves : list Z) (k i : nat) :
  zip moves (map players (seq k (length moves))) !! i
  = (fun column => (column, players (k + i))) <$> moves !! i.
Proof.
  unfold zip. revert k i. induction moves as [|c moves IH]; intros k i;
    [reflexivity|].
  destruct i as [|i]; simpl; [rewrite Nat.add_0_r; reflexivity|].
  rewrite IH. replace (S k + i)%nat with (k + S i)%nat by lia. reflexivity.
Qed.

(** X15: the move at position [i] of the log, counted from 0, is played
    by FIRST when [i] is even and by SECOND when it is odd: each move is
    played by the opponent of the player of the move before. *)
Theorem zip_players_alternate (moves : list Z) (i : nat) :
  zip_players moves !! i
  = (fun column => (column, if Nat.even i then FIRST else SECOND)) <$> moves !! i
  /\ players (S i) = get_second_user (players i)
  /\ get_second_user (players (S i)) = players i.
Proof.
  split; [|split; [apply players_succ|]].
  - unfold zip_players. rewrite lookup_zip_from. reflexivity.
  - rewrite players_succ. destruct (players i); reflexivity.
Qed.

(** ** Moves after the end of the game *)

Lemma first_result_set_moves (moves : list Z) (self : ConnectZ) (p : Player)
    (lines : list (res (list (option Player)))) :
  first_result (set_moves moves self) p lines = first_result self p lines.
Proof.
  induction lines as [|[e|line] lines IH]; [reflexivity|reflexivity|].
  simpl. rewrite IH. reflexivity.
Qed.

Lemma check_for_result_set_moves (moves : list Z) (self : ConnectZ) (p : Player) :
  _check_for_result (set_moves moves self) p = _check_for_result self p.
Proof.
  unfold _check_for_result. rewrite first_result_set_moves. reflexivity.
Qed.

Lemma put_disc_set_moves (moves : list Z) (self : ConnectZ) (p : Player)
    (column : Z) :
  put_disc p column (set_moves moves self)
  = (fst (put_disc p column self), set_moves moves (snd (put_disc p column self))).
Proof.
  unfold put_disc, the_grid, set_grid, set_moves. simpl.
  repeat match goal with
         | |- context [if ?b then _ else _] => destruct b
         | |- context [match ?t with _ => _ end] => destruct t
         end; reflexivity.
Qed.

Lemma play_move_set_moves (moves : list Z) (self : ConnectZ) (p : Player)
    (column : Z) :
  play_move column p (set_moves moves self)
  = (fst (play_move column p self),
     set_moves moves (snd (play_move column p self))).
Proof.
  rewrite !play_move_unfold, check_for_result_set_moves.
  destruct (_check_for_result self (get_second_user p)) as [e|r]; [reflexivity|].
  destruct (truthy r); [reflexivity|]. apply put_disc_set_moves.
Qed.

Lemma play_loop_set_moves (moves : list Z) (pairs : list (Z * Player))
    (player : option Player) (self : ConnectZ) :
  play_loop pairs player (set_moves moves self)
  = (fst (play_loop pairs player self),
     set_moves moves (snd (play_loop pairs player self))).
Proof.
  revert player self. induction pairs as [|[column p] pairs IH];
    intros player self; [reflexivity|].
  cbn [play_loop]. unfold bind. rewrite play_move_set_moves.
  destruct (play_move column p self) as [[e|[]] middle]; [reflexivity|].
  simpl. apply IH.
Qed.

Lemma play_loop_app (pairs pairs' : list (Z * Player)) (player : option Player)
    (self : ConnectZ) :
  play_loop (pairs ++ pairs') player self
  = match play_loop pairs player self with
    | (inl e, after) => (inl e, after)
    | (inr last, after) => play_loop pairs' last after
    end.
Proof.
  revert player self. induction pairs as [|[column p] pairs IH];
    intros player self; [reflexivity|].
  simpl. unfold bind. destruct (play_move column p self) as [[e|[]] middle];
    [reflexivity|]. apply IH.
Qed.

Lemma zip_players_app (moves moves' : list Z) :
  zip_players (moves ++ moves')
  = zip_players moves
    ++ zip moves' (map players (seq (length moves) (length moves'))).
Proof.
  unfold zip_players. rewrite length_app, seq_app, map_app.
  apply zip_app. rewrite length_map, length_seq. reflexivity.
Qed.

(** X16: once a log has ended, by a winning line of the player of its last
    move or by a full board, every longer log raises the too-many-moves
    failure, whatever its further moves are. *)
Theorem moves_after_end_refused (self after : ConnectZ) (player : Player)
    (moves rest : list Z) (column : Z)
    (Hz : 0 <= _z self)
    (Hmoves : _moves self = moves ++ column :: rest)
    (Hloop : play_moves (set_moves moves self) = (inr (Some player), after))
    (Hend : winning_line after player \/ board_full after) :
  fst (play self) = inl ToManyMovesException.
Proof.
  rewrite play_unfold, play_moves_unfold, Hmoves, zip_players_app, play_loop_app.
  rewrite play_moves_unfold in Hloop. simpl in Hloop.
  set (start := mkConnectZ _ _ _ moves _) in Hloop.
  change (mkConnectZ (_x self) (_y self) (_z self) (moves ++ column :: rest)
            (Some (replicate (Z.to_nat (_x self)) [])))
    with (set_moves (moves ++ column :: rest) start).
  rewrite play_loop_set_moves, Hloop. simpl fst. simpl snd.
  assert (well_formed start) as Hstart.
  { eexists. split; [reflexivity|]. apply length_replicate. }
  destruct (play_loop_last _ _ _ _ _ Hstart Hloop)
    as ((g & Hg & Hlen) & (_ & _ & Hsz) & _). simpl in Hsz.
  pose proof (play_loop_last_player _ _ _ _ _ Hloop) as Hlast.
  rewrite last_player_zip_players in Hlast.
  destruct moves as [|c moves]; [discriminate|]. injection Hlast as Hlast.
  simpl length in *. rewrite Nat.sub_0_r in Hlast.
  cbn [seq map zip combine play_loop]. unfold bind.
  rewrite play_move_set_moves, play_move_unfold, players_succ, <- Hlast.
  replace (get_second_user (get_second_user player)) with player
    by (destruct player; reflexivity).
  destruct (check_for_result_cases after g player Hg Hlen ltac:(lia))
    as [[_ ->]|[Hnot ->]]; [reflexivity|].
  destruct Hend as [Hwin|Hfull]; [contradiction|].
  apply (board_full_columns_full after g Hg) in Hfull. rewrite Hfull.
  reflexivity.
Qed.

Lemma moves_after_end_refused_witness :
  fst (play (mkConnectZ 2 2 2 [1; 2; 1; 7] None)) = inl ToManyMovesException.
Proof.
  apply (moves_after_end_refused (mkConnectZ 2 2 2 [1; 2; 1; 7] None)
           (snd (play_moves (mkConnectZ 2 2 2 [1; 2; 1] None)))
           FIRST [1; 2; 1] [] 7).
  - simpl. lia.
  - reflexivity.
  - reflexivity.
  - left. exists [Some FIRST; Some FIRST]. split.
    + left. reflexivity.
    + exists [], []. reflexivity.
Defined.

(** ** The board before the first move *)

Lemma cell_empty (n : nat) (x y : Z) : cell (replicate n []) x y = None.
Proof.
  unfold cell. destruct (replicate n [] !! Z.to_nat x) as [column|] eqn:H;
    [|reflexivity].
  apply lookup_replicate in H as [-> _]. reflexivity.
Qed.

Lemma no_run_without_disc (z : Z) (player : Player) (line : list (option Player)) :
  1 <= z -> ~ In (Some player) line -> ~ has_run z player line.
Proof.
  intros Hz Hnone (pre & post & Hrun). apply Hnone.
  pose proof (run_lookup _ _ _ _ 0%nat _ Hrun ltac:(lia)) as H.
  apply list_elem_of_In, list_elem_of_lookup. eauto.
Qed.

(** X17: for parameters that [__init__] accepts, the board that [play]
    starts from shows no result, neither a win nor a draw; so the first
    move of a log never raises the too-many-moves failure: it is handed
    to [put_disc]. *)
Theorem fresh_board_no_result (self : ConnectZ) (player : Player) (column : Z)
    (Hvalid : invalid_parameters (_x self) (_y self) (_z self) = false) :
  let start := mkConnectZ (_x self) (_y self) (_z self) (_moves self)
                 (Some (replicate (Z.to_nat (_x self)) [])) in
  _check_for_result start player = inr None
  /\ play_move column player start = put_disc player column start.
Proof.
  apply valid_parameters_positive in Hvalid as (Hx & Hy & Hz). intros start.
  assert (forall p, _check_for_result start p = inr None) as Hnone.
  { intros p.
    destruct (check_for_result_cases start (replicate (Z.to_nat (_x self)) []) p
                eq_refl ltac:(apply length_replicate) ltac:(simpl; lia))
      as [[Hwin _]|[_ ->]].
    - exfalso.
      apply (winning_line_lines_of start _ p eq_refl) in Hwin
        as (line & Hin & Hrun); [|apply length_replicate].
      revert Hrun. apply no_run_without_disc; [exact Hz|].
      unfold lines_of in Hin.
      apply in_app_or in Hin as [Hin|Hin]; [|apply in_app_or in Hin as [Hin|Hin]];
        apply in_map_iff in Hin as (a & <- & Hin); intros Hp;
        apply in_map_iff in Hp as (b & Hb & Hp).
      + apply list_elem_of_In, elem_of_replicate in Hin as [-> _].
        destruct Hp.
      + rewrite cell_empty in Hb. discriminate.
      + rewrite cell_empty in Hb. discriminate.
    - unfold columns_full.
      destruct (Z.to_nat (_x self)) as [|m] eqn:E; [lia|].
      cbn [replicate forallb]. change (_y start) with (_y self).
      destruct (Z.eqb_spec (Z.of_nat (length (@nil Player))) (_y self)) as [H|H];
        [simpl in H; lia|reflexivity]. }
  split; [apply Hnone|].
  rewrite play_move_unfold, Hnone. reflexivity.
Qed.

Lemma fresh_board_no_result_witness :
  let start := mkConnectZ 2 2 2 [3] (Some [[]; []]) in
  _check_for_result start SECOND = inr None
  /\ play_move 3 FIRST start = put_disc FIRST 3 start.
Proof.
  split.
  - apply (fresh_board_no_result (mkConnectZ 2 2 2 [3] None) SECOND 3). reflexivity.
  - reflexivity.
Defined.

(** ** The exit status *)




(** ** Parameters that are refused *)


